(** * Century-Fox auto-post bot: the scheduled queue, its dispatch tick,
      the voice polling client and the voice-mode registry of [main.py]. *)

From Stdlib Require Import ZArith List String Ascii Bool Lia.
From stdpp Require Import base option list gmap.
Import ListNotations.

Local Open Scope string_scope.
Local Open Scope list_scope.
Local Open Scope Z_scope.

(** ** Dates and the scheduled item

    A [datetime] is the number of microseconds since 0001-01-01 00:00:00,
    the resolution [datetime.now()] has.  The dictionary appended by [post]
    keeps the schedule time as the text written by
    [strftime("%Y-%m-%d %H:%M:%S")]; that text names a whole second and is
    held here as the number of that second.  [strptime] reads it back, except
    for a date before the year 1000: its year is written without leading
    zeros, "%Y" wants four digits, and [strptime] raises ValueError, for
    which [None] stands. *)

Definition datetime := Z.

Definition MINYEAR_us : Z := 0.
Definition MAXYEAR_us : Z := 3652059 * 86400 * 1000000 - 1.

(** The second at which the year 1000 begins. *)
Definition YEAR1000_s : Z := 364877 * 86400.

Definition strftime (t : datetime) : Z := t / 1000000.
Definition strptime (s : Z) : option datetime :=
  if s <? YEAR1000_s then None else Some (s * 1000000).

Record post_item := PostItem {
  title : string;
  message : string;
  link : string;
  time : Z
}.

#[global] Instance post_item_eq_dec : EqDecision post_item.
Proof. solve_decision. Defined.

(** ** Voice-mode registry: the dictionary [user_voice_mode] *)

Definition voice_on (user_id : Z) (user_voice_mode : gmap Z bool) : gmap Z bool :=
  <[user_id := true]> user_voice_mode.

Definition voice_off (user_id : Z) (user_voice_mode : gmap Z bool) : gmap Z bool :=
  <[user_id := false]> user_voice_mode.

(** [user_voice_mode.get(user_id, False)] in [handle_message]. *)
Definition voice_mode (user_id : Z) (user_voice_mode : gmap Z bool) : bool :=
  default false (user_voice_mode !! user_id).

(** The /voice_on and /voice_off commands a registry has handled. *)
Inductive mode_command := VoiceOn (user_id : Z) | VoiceOff (user_id : Z).

Definition mode_user (c : mode_command) : Z :=
  match c with VoiceOn u | VoiceOff u => u end.

Definition handle_mode (user_voice_mode : gmap Z bool) (c : mode_command) : gmap Z bool :=
  match c with
  | VoiceOn u => voice_on u user_voice_mode
  | VoiceOff u => voice_off u user_voice_mode
  end.

(** ** Text operations used by [post]

    Message text is taken over the code points below 256, one [ascii] each. *)

(** [str.isspace] on that range: 9..13, 28..32, 133 and 160. *)
Definition isspace (c : ascii) : bool :=
  let n := nat_of_ascii c in
  ((9 <=? n) && (n <=? 13) || (28 <=? n) && (n <=? 32) || (n =? 133) || (n =? 160))%nat.

Fixpoint lstrip (space : ascii -> bool) (s : string) : string :=
  match s with
  | EmptyString => EmptyString
  | String c s' => if space c then lstrip space s' else s
  end.

Fixpoint rstrip (space : ascii -> bool) (s : string) : string :=
  match s with
  | EmptyString => EmptyString
  | String c s' =>
      match rstrip space s' with
      | EmptyString => if space c then EmptyString else String c EmptyString
      | r => String c r
      end
  end.

(** [x.strip()] *)
Definition strip (s : string) : string := rstrip isspace (lstrip isspace s).

(** [c in s] for a one-character [c]. *)
Fixpoint contains (c : ascii) (s : string) : bool :=
  match s with
  | EmptyString => false
  | String a s' => Ascii.eqb a c || contains c s'
  end.

(** The text before the first [sep], and the text after it when there is
    one. *)
Fixpoint partition (sep : ascii) (s : string) : string * option string :=
  match s with
  | EmptyString => (EmptyString, None)
  | String c s' =>
      if Ascii.eqb c sep then (EmptyString, Some s')
      else let '(h, r) := partition sep s' in (String c h, r)
  end.

(** [s.split(sep, maxsplit)] *)
Fixpoint split (sep : ascii) (maxsplit : nat) (s : string) : list string :=
  match maxsplit with
  | O => [s]
  | S n =>
      match partition sep s with
      | (h, None) => [h]
      | (h, Some r) => h :: split sep n r
      end
  end.

(** [int(s)] on text: surrounding white space, an optional sign, then
    decimal digits in which single underscores may separate digits;
    [None] stands for [ValueError].  The white space [int] skips is that of
    C's [isspace], 9..13 and 32, and 133 and 160, which it first turns into
    spaces; 28..31 are not part of it. *)
Definition int_space (c : ascii) : bool :=
  let n := nat_of_ascii c in
  ((9 <=? n) && (n <=? 13) || (n =? 32) || (n =? 133) || (n =? 160))%nat.

Definition digit (c : ascii) : option Z :=
  let n := nat_of_ascii c in
  if ((48 <=? n) && (n <=? 57))%nat then Some (Z.of_nat n - 48) else None.

Fixpoint digits (acc : Z) (after_digit : bool) (s : string) : option Z :=
  match s with
  | EmptyString => if after_digit then Some acc else None
  | String c s' =>
      match digit c with
      | Some d => digits (10 * acc + d) true s'
      | None =>
          if Ascii.eqb c "_" && after_digit then digits acc false s' else None
      end
  end.

Definition int (s : string) : option Z :=
  match rstrip int_space (lstrip int_space s) with
  | EmptyString => None
  | String c r =>
      if Ascii.eqb c "+" then digits 0 false r
      else if Ascii.eqb c "-" then Z.opp <$> digits 0 false r
      else digits 0 false (String c r)
  end.

(** [timedelta(minutes=m)]: microseconds, [None] for the [OverflowError]
    raised when the day count leaves -999999999..999999999. *)
Definition timedelta_minutes (m : Z) : option Z :=
  let days := m / 1440 in
  if (-999999999 <=? days) && (days <=? 999999999) then Some (m * 60 * 1000000)
  else None.

(** [datetime + timedelta]: [None] for the [OverflowError] raised outside
    years 1..9999. *)
Definition datetime_add (t : datetime) (td : Z) : option datetime :=
  let r := t + td in
  if (MINYEAR_us <=? r) && (r <=? MAXYEAR_us) then Some r else None.

(** ** The [/post] command *)

Inductive reply :=
| InvalidFormat                      (* "Invalid format. Use: ..." *)
| PostScheduled (schedule_time : datetime).  (* "Post scheduled for ..." *)

(** The body of the [try] block: [None] when it raises. *)
Definition parse_post (text : string) (now : datetime)
  : option (string * string * string * datetime) :=
  match partition " " text with
  | (_, None) => None
  | (_, Some payload) =>
      match map strip (split "|" 3 payload) with
      | [title; message; link; minutes] =>
          m ← int minutes;
          td ← timedelta_minutes m;
          schedule_time ← datetime_add now td;
          Some (title, message, link, schedule_time)
      | _ => None
      end
  end.

Definition post (text : string) (now : datetime) (post_queue : list post_item)
  : reply * list post_item :=
  if String.eqb text "" || negb (contains "|" text) then (InvalidFormat, post_queue)
  else
    match parse_post text now with
    | None => (InvalidFormat, post_queue)
    | Some (title, message, link, schedule_time) =>
        (PostScheduled schedule_time,
         post_queue ++ [PostItem title message link (strftime schedule_time)])
    end.

(** ** The [/queue] command

    The reply text is kept as its lines: position from 1, title, time. *)

Inductive listing :=
| QueueEmpty                                      (* "Queue is empty." *)
| ScheduledPosts (lines : list (nat * string * Z)).  (* "Scheduled Posts:" ... *)

Definition queue (post_queue : list post_item) : listing * list post_item :=
  match post_queue with
  | [] => (QueueEmpty, post_queue)
  | _ =>
      (ScheduledPosts (imap (fun i item => (S i, title item, time item)) post_queue),
       post_queue)
  end.

(** ** The dispatch tick [auto_post_loop]

    The coroutine runs without interruption from one [await] to the next.
    Its only [await] is the [send_photo] call, which comes before
    [post_queue.remove]: a run is suspended there, holding its [now], the item
    being sent and the rest of its snapshot [post_queue[:]].  The run raises
    ValueError when [strptime] cannot read the time of the item it comes
    to. *)

(** The time of the item reads back. *)
Definition readable (item : post_item) : bool :=
  match strptime (time item) with Some _ => true | None => false end.

(** The time of the item reads back and [now >= post_time]. *)
Definition is_due (now : datetime) (item : post_item) : bool :=
  match strptime (time item) with
  | Some post_time => post_time <=? now
  | None => false
  end.

Inductive exn := ValueError | SendError.

Inductive job :=
| Awaiting (now : datetime) (item : post_item) (rest : list post_item)
| Finished
| Raised (e : exn).

(** The [for] loop from its head to the next [send_photo]. *)
Fixpoint loop (now : datetime) (snapshot : list post_item) : job :=
  match snapshot with
  | [] => Finished
  | item :: rest =>
      match strptime (time item) with
      | None => Raised ValueError
      | Some post_time =>
          if post_time <=? now then Awaiting now item rest else loop now rest
      end
  end.

Definition auto_post_loop (now : datetime) (post_queue : list post_item) : job :=
  loop now post_queue.

(** [list.remove(x)]: the first element equal to [x] goes; [None] stands for
    the [ValueError] raised when there is none. *)
Fixpoint remove (x : post_item) (l : list post_item) : option (list post_item) :=
  match l with
  | [] => None
  | y :: l' => if decide (y = x) then Some l' else cons y <$> remove x l'
  end.

(** The run continues when [send_photo] returns ([ok]) or raises. *)
Definition resume (ok : bool) (now : datetime) (item : post_item)
    (rest : list post_item) (post_queue : list post_item) : job * list post_item :=
  if ok then
    match remove item post_queue with
    | Some q => (loop now rest, q)
    | None => (Raised ValueError, post_queue)
    end
  else (Raised SendError, post_queue).

(** ** The bot as the event loop sees it

    [jobs] holds every run of [auto_post_loop] in the order they started;
    [sent] logs each [send_photo] call as (run, its [now], item), [removed]
    each completed [post_queue.remove]. *)

Record bot := Bot {
  post_queue : list post_item;
  jobs : list job;
  sent : list (nat * datetime * post_item);
  removed : list (nat * post_item)
}.

Definition init : bot := Bot [] [] [] [].

Inductive event :=
| Post (text : string) (now : datetime)   (* a /post command is handled *)
| Queue                                   (* a /queue command is handled *)
| Tick (now : datetime)                   (* the job queue starts auto_post_loop *)
| Sent (i : nat) (ok : bool).             (* the send_photo of run i returns or raises *)

#[global] Instance event_eq_dec : EqDecision event.
Proof. solve_decision. Defined.

Definition call (i : nat) (j : job) : list (nat * datetime * post_item) :=
  match j with
  | Awaiting now item _ => [(i, now, item)]
  | _ => []
  end.

Definition step (b : bot) (e : event) : bot :=
  match e with
  | Post text now =>
      Bot (snd (post text now (post_queue b))) (jobs b) (sent b) (removed b)
  | Queue =>
      Bot (snd (queue (post_queue b))) (jobs b) (sent b) (removed b)
  | Tick now =>
      let j := auto_post_loop now (post_queue b) in
      Bot (post_queue b) (jobs b ++ [j]) (sent b ++ call (length (jobs b)) j) (removed b)
  | Sent i ok =>
      match jobs b !! i with
      | Some (Awaiting now item rest) =>
          let '(j, q) := resume ok now item rest (post_queue b) in
          Bot q (<[i := j]> (jobs b)) (sent b ++ call i j)
              (if ok then
                 match remove item (post_queue b) with
                 | Some _ => removed b ++ [(i, item)]
                 | None => removed b
                 end
               else removed b)
      | _ => b
      end
  end.

Definition run (b : bot) (events : list event) : bot := fold_left step events b.

(** The items the /post commands of a schedule append. *)
Definition posted (events : list event) : list post_item :=
  flat_map (fun e => match e with
                     | Post text now => snd (post text now [])
                     | _ => []
                     end) events.

(** The runs of [auto_post_loop] that called [send_photo] with [x]. *)
Definition senders (x : post_item) (b : bot) : list nat :=
  map (fun c => fst (fst c)) (filter (fun c => snd c = x) (sent b)).

(** The items run [i] called [send_photo] with, in order. *)
Definition sent_by (i : nat) (b : bot) : list post_item :=
  map snd (filter (fun c => fst (fst c) = i) (sent b)).

(** The number of elements of [l] equal to [x]. *)
Definition count (x : post_item) (l : list post_item) : nat :=
  length (filter (fun y => y = x) l).

(** The items whose [send_photo] is in flight. *)
Definition awaited (js : list job) : list post_item :=
  flat_map (fun j => match j with Awaiting _ x _ => [x] | _ => [] end) js.

Definition suspended (j : job) : bool :=
  match j with Awaiting _ _ _ => true | _ => false end.

(** A schedule is serial when no run of [auto_post_loop] starts while
    another is suspended in [send_photo], and every [send_photo] returns. *)
Definition allowed (b : bot) (e : event) : bool :=
  match e with
  | Post _ _ | Queue => true
  | Tick _ => forallb (fun j => negb (suspended j)) (jobs b)
  | Sent i ok =>
      ok && match jobs b !! i with Some j => suspended j | None => false end
  end.

Fixpoint serial (b : bot) (events : list event) : bool :=
  match events with
  | [] => true
  | e :: events' => allowed b e && serial (step b e) events'
  end.

(** A schedule is sequential when no run of [auto_post_loop] starts while
    another is suspended in [send_photo]; a [send_photo] may raise. *)
Definition exclusive (b : bot) (e : event) : bool :=
  match e with
  | Post _ _ | Queue => true
  | Tick _ => forallb (fun j => negb (suspended j)) (jobs b)
  | Sent i _ => match jobs b !! i with Some j => suspended j | None => false end
  end.

Fixpoint sequential (b : bot) (events : list event) : bool :=
  match events with
  | [] => true
  | e :: events' => exclusive b e && sequential (step b e) events'
  end.

(** The state of a sequential schedule: every earlier run has ended, and the
    last one either has too or is suspended on [x], the queue then holding
    the not-due items it skipped, [x], the rest of its snapshot and what was
    posted since. *)
Inductive phase (b : bot) : Prop :=
| Idle :
    Forall (fun j => suspended j = false) (jobs b) → phase b
| Busy (front : list job) (now : datetime) (x : post_item)
       (rest kept extra : list post_item) :
    jobs b = front ++ [Awaiting now x rest] →
    Forall (fun j => suspended j = false) front →
    post_queue b = kept ++ x :: rest ++ extra →
    Forall (fun y => is_due now y = false) kept →
    is_due now x = true →
    phase b.

(** How far run [i], started at [now] on the snapshot [q0], has come: the
    time of every item of the part of [q0] it has passed read back, and every
    due one of them has been sent. *)
Definition progress (b : bot) (i : nat) (now : datetime) (q0 : list post_item) : Prop :=
  match jobs b !! i with
  | Some (Awaiting now' y rest) =>
      now' = now ∧ is_due now y = true ∧ (i, now, y) ∈ sent b ∧
      ∃ passed, q0 = passed ++ y :: rest ∧
                ∀ z, z ∈ passed →
                     readable z = true ∧ (is_due now z = true → (i, now, z) ∈ sent b)
  | Some Finished =>
      ∀ z, z ∈ q0 → readable z = true ∧ (is_due now z = true → (i, now, z) ∈ sent b)
  | Some (Raised _) => True
  | None => False
  end.

Definition accepted {A : Type} (o : option A) : bool :=
  match o with Some _ => true | None => false end.

Fixpoint all_digits (s : string) : bool :=
  match s with
  | EmptyString => true
  | String c s' => accepted (digit c) && all_digits s'
  end.

(** The fields of a text between separators, [s.split(sep)]. *)
Fixpoint fields (sep : ascii) (s : string) : list string :=
  match s with
  | EmptyString => [EmptyString]
  | String c s' =>
      if Ascii.eqb c sep then EmptyString :: fields sep s'
      else match fields sep s' with
           | h :: t => String c h :: t
           | [] => [String c EmptyString]
           end
  end.

(** The text of a schedule command as the specification words it: exactly
    four fields between pipes after the command word, the last one a
    non-negative integer written in digits. *)
Definition well_formed_spec (text : string) : bool :=
  match partition " " text with
  | (_, Some payload) =>
      (length (fields "|" payload) =? 4)%nat &&
      (let minutes := strip (nth 3 (fields "|" payload) "") in
       negb (String.eqb minutes "") && all_digits minutes)
  | (_, None) => false
  end.

(** The same with the last field any text [int] reads. *)
Definition well_formed (text : string) : bool :=
  match partition " " text with
  | (_, Some payload) =>
      (length (fields "|" payload) =? 4)%nat &&
      accepted (int (strip (nth 3 (fields "|" payload) "")))
  | (_, None) => false
  end.

(** ** The voice client [generate_voice]

    What the function meets outside the program: the answer to the POST that
    creates the clip, the answer to each status GET and each reading of
    [time.time()], in milliseconds.  Reading 0 is [start]; reading [k+1] is
    the one taken after the [k]-th GET (counted from 0) answered something
    other than "done". *)

Inductive response :=
| HTTPError                                                  (* the request or raise_for_status raises *)
| Json (status : option string) (download_url : option string).  (* the two keys read with .get *)

Record remote := Remote {
  clips_post : string -> option Z;
  clip_get : Z -> nat -> response;
  time_time : nat -> Z
}.

Inductive io :=
| RequestsPost
| RequestsGet
| TimeTime
| TimeSleep (seconds : Z).

#[global] Instance io_eq_dec : EqDecision io.
Proof. solve_decision. Defined.

Inductive outcome :=
| Return (download_url : option string)
| TimeoutError
| RequestException.

(** The [while True] loop from its [k]-th GET on; [fuel] bounds the number of
    rounds and [None] is a run cut by it. *)
Fixpoint poll (r : remote) (clip_id : Z) (timeout_seconds start : Z)
    (fuel k : nat) : option outcome * list io :=
  match fuel with
  | O => (None, [])
  | S fuel' =>
      match clip_get r clip_id k with
      | HTTPError => (Some RequestException, [RequestsGet])
      | Json status download_url =>
          if bool_decide (status = Some "done") then
            (Some (Return download_url), [RequestsGet])
          else if time_time r (S k) - start >? 1000 * timeout_seconds then
            (Some TimeoutError, [RequestsGet; TimeTime])
          else
            let '(o, t) := poll r clip_id timeout_seconds start fuel' (S k) in
            (o, RequestsGet :: TimeTime :: TimeSleep 2 :: t)
      end
  end.

Definition generate_voice (r : remote) (text : string) (timeout_seconds : Z)
    (fuel : nat) : option outcome * list io :=
  match clips_post r text with
  | None => (Some RequestException, [RequestsPost])
  | Some clip_id =>
      let start := time_time r 0 in
      let '(o, t) := poll r clip_id timeout_seconds start fuel 0 in
      (o, RequestsPost :: TimeTime :: t)
  end.

(** The number of status queries of a run. *)
Definition polls (t : list io) : nat :=
  length (filter (fun c => c = RequestsGet) t).

(** ** The message handler [handle_message]

    A step of a coroutine is either a plain call, during which the event loop
    runs nothing else, or an [await], where the coroutine is suspended and the
    event loop runs the other handlers and jobs. *)

Inductive awaitable :=
| ReplyVoice (voice : option string)
| ReplyText (text : string).

Inductive action :=
| Call (c : io)
| CallChatCompletion
| Await (a : awaitable).

Definition handle_message (user_voice_mode : gmap Z bool) (r : remote)
    (chat : string -> option string) (user_id : Z) (text : string)
    (fuel : nat) : list action :=
  if voice_mode user_id user_voice_mode then
    match generate_voice r text 30 fuel with
    | (Some (Return voice_url), t) => map Call t ++ [Await (ReplyVoice voice_url)]
    | (_, t) => map Call t
    end
  else
    match chat text with
    | Some content => [CallChatCompletion; Await (ReplyText (strip content))]
    | None => [CallChatCompletion]
    end.

(** The [k]-th status query answers, and with a status other than "done". *)
Definition pending (r : remote) (clip_id : Z) (k : nat) : Prop :=
  ∃ status download_url,
    clip_get r clip_id k = Json status download_url ∧ status ≠ Some "done".

(** The reading of [time.time()] after the [k]-th query is within the
    timeout. *)
Definition in_time (r : remote) (timeout_seconds start : Z) (k : nat) : Prop :=
  time_time r (S k) - start <= 1000 * timeout_seconds.

(** One round of the loop that goes on: query, clock, sleep. *)
Fixpoint rounds (n : nat) : list io :=
  match n with
  | O => []
  | S n' => RequestsGet :: TimeTime :: TimeSleep 2 :: rounds n'
  end.

(** Sample surroundings.  Every status query answers "pending" in the first
    two; in [exact_remote] a query takes no time and a sleep lasts two
    seconds, in [slow_last_remote] the seventeenth query takes five seconds
    more.  [slow_remote] answers "done" at the fourth query, each query
    taking about ten seconds.  [quick_remote] answers "done" with a
    download_url at the [n]-th query (from 0) and [bare_remote] without one. *)
Definition exact_clock (k : nat) : Z := 2000 * Z.of_nat (k - 1).

Definition exact_remote : remote :=
  Remote (fun _ => Some 42) (fun _ _ => Json (Some "pending") None) exact_clock.

Definition slow_last_remote : remote :=
  Remote (fun _ => Some 42) (fun _ _ => Json (Some "pending") None)
    (fun k => if (k <=? 16)%nat then exact_clock k else exact_clock k + 5000).

Definition done_at (n : nat) (download_url : option string) (k : nat) : response :=
  if (k <? n)%nat then Json (Some "pending") None else Json (Some "done") download_url.

Definition slow_remote : remote :=
  Remote (fun _ => Some 42) (fun _ => done_at 3 (Some "U"))
    (fun k => match k with O => 0 | S k' => 9500 + 11500 * Z.of_nat k' end).

Definition quick_remote (n : nat) : remote :=
  Remote (fun _ => Some 42) (fun _ => done_at n (Some "U")) exact_clock.

Definition bare_remote (n : nat) : remote :=
  Remote (fun _ => Some 42) (fun _ => done_at n None) exact_clock.

(** Sample schedule parts: two /post commands with offset 0 sent on
    2024-01-01 shortly after midnight, and the items they append. *)
Definition t0 : datetime := 63839664000900000.
Definition post_T : event := Post "/post T|B|http://x|0" t0.
Definition post_U : event := Post "/post U|B|http://y|0" (t0 + 1000000).
Definition item_T : post_item := PostItem "T" "B" "http://x" 63839664000.
Definition item_U : post_item := PostItem "U" "B" "http://y" 63839664001.

(** The flag the last command of [u] in [cs] sets, if [u] has one. *)
Fixpoint last_mode (u : Z) (cs : list mode_command) : option bool :=
  match cs with
  | [] => None
  | c :: cs' =>
      match last_mode u cs' with
      | Some flag => Some flag
      | None =>
          if decide (mode_user c = u)
          then Some (match c with VoiceOn _ => true | VoiceOff _ => false end)
          else None
      end
  end.

(** The number of [time.sleep(2)] calls of a run. *)
Definition sleeps (t : list io) : nat :=
  length (filter (fun c => c = TimeSleep 2) t).

(** Every item the bot holds, in its queue, in the snapshots of its
    suspended runs or in its log of [send_photo] calls, is one of [P]. *)
Definition known (P : list post_item) (b : bot) : Prop :=
  (∀ x, x ∈ post_queue b → x ∈ P) ∧
  (∀ i now x rest, jobs b !! i = Some (Awaiting now x rest) →
                   ∀ y, y ∈ x :: rest → y ∈ P) ∧
  (∀ c, c ∈ sent b → snd c ∈ P).

(** ** Start-up

    The module reads six variables with [os.getenv] and leaves with
    [SystemExit] unless [all] of them are true values; [environ] is the
    environment as [load_dotenv] has left it.  [None] and the empty text are
    the false values [os.getenv] can give. *)

Definition required : list string :=
  ["OPENAI_API_KEY"; "TELEGRAM_TOKEN"; "RESEMBLE_API_KEY"; "RESEMBLE_VOICE_ID";
   "RESEMBLE_PROJECT_ID"; "CHANNEL_ID"].

Definition getenv (environ : gmap string string) (name : string) : option string :=
  environ !! name.

Definition truth (value : option string) : bool :=
  match value with
  | Some s => negb (String.eqb s "")
  | None => false
  end.

(** [true] when the module goes on to build the application, [false] when it
    raises [SystemExit]. *)
Definition startup (environ : gmap string string) : bool :=
  forallb truth (map (getenv environ) required).

(** Ticks one after the other, the first [send_photo] of each raising; [i]
    is the number of the first run. *)
Fixpoint failing_ticks (i : nat) (nows : list datetime) : list event :=
  match nows with
  | [] => []
  | now :: nows' => Tick now :: Sent i false :: failing_ticks (S i) nows'
  end.

(** * Properties *)

(** ** Voice-mode registry *)

Lemma handle_mode_other (u : Z) (cs : list mode_command) (m : gmap Z bool) :
  u ∉ map mode_user cs → fold_left handle_mode cs m !! u = m !! u.
Proof.
  revert m. induction cs as [|c cs IH]; intros m Hu; [done|].
  cbn [fold_left map] in *. apply not_elem_of_cons in Hu as [Hc Hu].
  rewrite IH by done.
  destruct c; cbn in *; unfold voice_on, voice_off; by rewrite lookup_insert_ne.
Qed.

(** C9: after /voice_on the mode of that user reads true, after /voice_off
    it reads false, and a user none of whose commands reached the registry
    reads false; the read is a function of the registry and returns only the
    flag. *)
Theorem voice_mode_read_after_write (u : Z) (m : gmap Z bool) (cs : list mode_command) :
  voice_mode u (voice_on u m) = true ∧
  voice_mode u (voice_off u m) = false ∧
  (u ∉ map mode_user cs → voice_mode u (fold_left handle_mode cs ∅) = false).
Proof.
  unfold voice_mode, voice_on, voice_off. rewrite !lookup_insert_eq.
  split; [done|]. split; [done|].
  intros Hu. by rewrite handle_mode_other.
Qed.

Lemma voice_mode_read_after_write_witness :
  voice_mode 7 (voice_on 7 ∅) = true ∧
  voice_mode 7 (voice_off 7 ∅) = false ∧
  voice_mode 7 (fold_left handle_mode [VoiceOn 3; VoiceOff 5] ∅) = false.
Proof.
  pose proof (voice_mode_read_after_write 7 ∅ [VoiceOn 3; VoiceOff 5]) as (H1 & H2 & H3).
  split; [exact H1|]. split; [exact H2|].
  apply H3. cbn. intros H.
  apply elem_of_cons in H as [H|H]; [discriminate|].
  apply elem_of_cons in H as [H|H]; [discriminate|].
  by apply elem_of_nil in H.
Defined.

(** ** The voice client *)

Section Polling.
Variables (r : remote) (clip_id : Z) (timeout_seconds start : Z).

Abbreviation pending := (pending r clip_id).
Abbreviation in_time := (in_time r timeout_seconds start).

Lemma polls_rounds (n : nat) (t : list io) : polls (rounds n ++ t) = (n + polls t)%nat.
Proof.
  unfold polls. induction n as [|n IH]; [done|].
  cbn [rounds app]. rewrite filter_cons_True by done.
  rewrite filter_cons_False by done. rewrite filter_cons_False by done.
  cbn [length]. by rewrite IH.
Qed.

Lemma poll_done (fuel k : nat) (download_url : option string) :
  clip_get r clip_id k = Json (Some "done") download_url →
  poll r clip_id timeout_seconds start (S fuel) k =
  (Some (Return download_url), [RequestsGet]).
Proof. intros H. cbn [poll]. rewrite H. by rewrite bool_decide_eq_true_2. Qed.

Lemma poll_late (fuel k : nat) :
  pending k → ¬ in_time k →
  poll r clip_id timeout_seconds start (S fuel) k =
  (Some TimeoutError, [RequestsGet; TimeTime]).
Proof.
  intros (s & u & H & Hs) Hlate. unfold in_time in Hlate. cbn [poll]. rewrite H.
  rewrite bool_decide_eq_false_2 by done.
  destruct (Z.gtb_spec (time_time r (S k) - start) (1000 * timeout_seconds)); [done|lia].
Qed.

Lemma poll_rounds (n : nat) : ∀ (fuel k : nat),
  (∀ i, (k <= i < k + n)%nat → pending i ∧ in_time i) →
  poll r clip_id timeout_seconds start (n + fuel) k =
  (fst (poll r clip_id timeout_seconds start fuel (k + n)),
   rounds n ++ snd (poll r clip_id timeout_seconds start fuel (k + n))).
Proof.
  induction n as [|n IH]; intros fuel k H.
  - rewrite Nat.add_0_r. cbn. by destruct (poll _ _ _ _ _ _).
  - destruct (H k) as [(s & u & Hget & Hs) Ht]; [lia|]. unfold in_time in Ht.
    cbn [Nat.add poll]. rewrite Hget. rewrite bool_decide_eq_false_2 by done.
    destruct (Z.gtb_spec (time_time r (S k) - start) (1000 * timeout_seconds)); [lia|].
    rewrite (IH fuel (S k)) by (intros i Hi; apply H; lia).
    replace (S k + n)%nat with (k + S n)%nat by lia. done.
Qed.
End Polling.

Lemma generate_voice_poll (r : remote) (text : string) (clip_id timeout_seconds : Z) (fuel : nat) :
  clips_post r text = Some clip_id →
  generate_voice r text timeout_seconds fuel =
  (fst (poll r clip_id timeout_seconds (time_time r 0) fuel 0),
   RequestsPost :: TimeTime :: snd (poll r clip_id timeout_seconds (time_time r 0) fuel 0)).
Proof. intros H. unfold generate_voice. rewrite H. by destruct (poll _ _ _ _ _ _). Qed.

Lemma polls_generate_voice (t : list io) : polls (RequestsPost :: TimeTime :: t) = polls t.
Proof. done. Qed.

(** With sleeps of at least two seconds the clock has advanced by [2 k]
    seconds when the [k]-th query has answered. *)
Lemma clock_advances (r : remote) (k : nat) :
  time_time r 0 <= time_time r 1 →
  (∀ i, time_time r (S i) + 2000 <= time_time r (S (S i))) →
  time_time r 0 + 2000 * Z.of_nat k <= time_time r (S k).
Proof.
  intros H0 Hs. induction k as [|k IH]; [lia|]. specialize (Hs k). lia.
Qed.

(** The first query after which the clock is past the timeout. *)
Lemma first_late (r : remote) (timeout_seconds start : Z) (m : nat) :
  ¬ in_time r timeout_seconds start m →
  ∃ n, (n <= m)%nat ∧ ¬ in_time r timeout_seconds start n ∧
       ∀ i, (i < n)%nat → in_time r timeout_seconds start i.
Proof.
  assert (∀ k, (∀ i, (i < k)%nat → in_time r timeout_seconds start i) ∨
               ∃ n, (n < k)%nat ∧ ¬ in_time r timeout_seconds start n ∧
                    ∀ i, (i < n)%nat → in_time r timeout_seconds start i) as Hscan.
  { induction k as [|k [Hall|(n & Hn & Hlate & Hbefore)]].
    - left. intros i Hi. lia.
    - destruct (Z.le_gt_cases (time_time r (S k) - start) (1000 * timeout_seconds)) as [Hle|Hgt].
      + left. intros i Hi. destruct (decide (i = k)) as [->|]; [done|]. apply Hall. lia.
      + right. exists k. split; [lia|]. split; [unfold in_time; lia|done].
    - right. exists n. split; [lia|done]. }
  intros Hm. destruct (Hscan m) as [Hall|(n & Hn & Hlate & Hbefore)].
  - exists m. split; [lia|done].
  - exists n. split; [lia|done].
Qed.

(** C5: when every status query answers and none says "done", each sleep
    lasts at least its two seconds and the clock does not run backwards, the
    call raises the timeout error after at most timeout/2 + 2 queries.  The
    clock is past the timeout at that moment and was within it at every
    earlier reading: the error comes no later than the timeout plus the
    length of the last round (its sleep and its query) after the start. *)
Theorem generate_voice_timeout (r : remote) (text : string)
    (clip_id timeout_seconds : Z) (fuel : nat) :
  0 <= timeout_seconds →
  clips_post r text = Some clip_id →
  (∀ k, pending r clip_id k) →
  time_time r 0 <= time_time r 1 →
  (∀ k, time_time r (S k) + 2000 <= time_time r (S (S k))) →
  (Z.to_nat (timeout_seconds / 2) + 2 <= fuel)%nat →
  ∃ t, generate_voice r text timeout_seconds fuel = (Some TimeoutError, t) ∧
       (1 <= polls t <= Z.to_nat (timeout_seconds / 2) + 2)%nat ∧
       1000 * timeout_seconds < time_time r (polls t) - time_time r 0 ∧
       ∀ k, (1 <= k < polls t)%nat →
            time_time r k - time_time r 0 <= 1000 * timeout_seconds.
Proof.
  intros HT Hpost Hpend H0 Hsleep Hfuel.
  set (m := (Z.to_nat (timeout_seconds / 2) + 1)%nat).
  assert (¬ in_time r timeout_seconds (time_time r 0) m) as Hm.
  { unfold in_time. pose proof (clock_advances r m H0 Hsleep).
    assert (timeout_seconds < 2 * Z.of_nat m); [|lia].
    unfold m. rewrite Nat2Z.inj_add, Z2Nat.id by (apply Z.div_pos; lia).
    pose proof (Z.mod_pos_bound timeout_seconds 2 ltac:(lia)).
    pose proof (Z.div_mod timeout_seconds 2 ltac:(lia)). lia. }
  destruct (first_late r timeout_seconds (time_time r 0) m Hm) as (n & Hn & Hlate & Hbefore).
  exists (RequestsPost :: TimeTime :: rounds n ++ [RequestsGet; TimeTime]).
  assert (polls (RequestsPost :: TimeTime :: rounds n ++ [RequestsGet; TimeTime]) = S n) as Hpolls.
  { rewrite polls_generate_voice, polls_rounds.
    change (polls [RequestsGet; TimeTime]) with 1%nat. lia. }
  rewrite Hpolls. split.
  - rewrite (generate_voice_poll r text clip_id) by done.
    replace fuel with (n + S (fuel - n - 1))%nat by (unfold m in Hn; lia).
    rewrite poll_rounds by (intros i Hi; split; [apply Hpend|apply Hbefore; lia]).
    cbn [Nat.add]. by rewrite poll_late.
  - split; [unfold m in Hn; lia|]. split.
    + unfold in_time in Hlate. lia.
    + intros k Hk. destruct k as [|k]; [lia|]. apply (Hbefore k). lia.
Qed.

Lemma generate_voice_timeout_witness :
  ∃ t, generate_voice exact_remote "hello" 30 17 = (Some TimeoutError, t) ∧
       (1 <= polls t <= Z.to_nat (30 / 2) + 2)%nat ∧
       1000 * 30 < time_time exact_remote (polls t) - time_time exact_remote 0 ∧
       ∀ k, (1 <= k < polls t)%nat →
            time_time exact_remote k - time_time exact_remote 0 <= 1000 * 30.
Proof.
  apply (generate_voice_timeout exact_remote "hello" 42 30 17).
  - lia.
  - reflexivity.
  - intros k. exists (Some "pending"), None. split; [reflexivity|discriminate].
  - cbn. unfold exact_clock. lia.
  - intros k. cbn. unfold exact_clock. lia.
  - change (Z.to_nat (30 / 2)) with 15%nat. lia.
Defined.

(** C5, as stated, fails: no query says "done", every sleep lasts exactly two
    seconds, and the seventeenth query takes five seconds; the timeout error
    comes 37 seconds after the start and after the first query, later than
    timeout + 2. *)
Lemma timeout_later_than_one_interval :
  (∀ k, pending slow_last_remote 42 k) ∧
  ∃ t, generate_voice slow_last_remote "hello" 30 20 = (Some TimeoutError, t) ∧
       polls t = 17%nat ∧
       time_time slow_last_remote (polls t) - time_time slow_last_remote 0 = 37000 ∧
       time_time slow_last_remote (polls t) - time_time slow_last_remote 1 = 37000 ∧
       ¬ (37000 <= 1000 * (30 + 2)).
Proof.
  split.
  - intros k. exists (Some "pending"), None. split; [reflexivity|discriminate].
  - eexists. split; [vm_compute; reflexivity|]. repeat split. lia.
Qed.




(** C10: the answer that says "done" is not checked for a download_url: the
    call returns whatever that answer carries, a locator or nothing.  When
    the answer carries none the result is [None], returned as any other
    result, with the same requests made and nothing raised. *)
Theorem generate_voice_returns_done_field (r : remote) (text : string)
    (clip_id timeout_seconds : Z) (fuel n : nat) (download_url : option string) :
  clips_post r text = Some clip_id →
  (∀ k, (k < n)%nat →
        pending r clip_id k ∧ in_time r timeout_seconds (time_time r 0) k) →
  clip_get r clip_id n = Json (Some "done") download_url →
  (n < fuel)%nat →
  generate_voice r text timeout_seconds fuel =
  (Some (Return download_url), RequestsPost :: TimeTime :: rounds n ++ [RequestsGet]).
Proof.
  intros Hpost Hbefore Hdone Hfuel.
  rewrite (generate_voice_poll r text clip_id) by done.
  replace fuel with (n + S (fuel - n - 1))%nat by lia.
  rewrite poll_rounds by (intros i Hi; apply Hbefore; lia).
  cbn [Nat.add]. by rewrite (poll_done _ _ _ _ _ _ download_url).
Qed.

Lemma generate_voice_returns_done_field_witness :
  generate_voice (bare_remote 1) "hello" 30 10 =
  (Some (Return None), RequestsPost :: TimeTime :: rounds 1 ++ [RequestsGet]) ∧
  generate_voice (quick_remote 1) "hello" 30 10 =
  (Some (Return (Some "U")), RequestsPost :: TimeTime :: rounds 1 ++ [RequestsGet]).
Proof.
  split.
  - apply (generate_voice_returns_done_field (bare_remote 1) "hello" 42 30 10 1 None).
    + reflexivity.
    + intros k Hk. split.
      * exists (Some "pending"), None. split; [|discriminate].
        cbn. unfold done_at. destruct (Nat.ltb_spec k 1); [reflexivity|lia].
      * unfold in_time. cbn. unfold exact_clock. lia.
    + reflexivity.
    + lia.
  - apply (generate_voice_returns_done_field (quick_remote 1) "hello" 42 30 10 1
             (Some "U")).
    + reflexivity.
    + intros k Hk. split.
      * exists (Some "pending"), None. split; [|discriminate].
        cbn. unfold done_at. destruct (Nat.ltb_spec k 1); [reflexivity|lia].
      * unfold in_time. cbn. unfold exact_clock. lia.
    + reflexivity.
    + lia.
Defined.

(** C7: with voice mode on, [handle_message] runs the whole of
    [generate_voice] as plain calls, each wait a [time.sleep(2)] among them;
    the only [await] of the handler is the reply that follows, so no other
    handler or job runs between the POST and the return of the client. *)
Theorem handle_message_blocks (m : gmap Z bool) (r : remote)
    (chat : string → option string) (u : Z) (text : string) (fuel : nat) :
  let trace := handle_message (voice_on u m) r chat u text fuel in
  (∃ tail, trace = map Call (snd (generate_voice r text 30 fuel)) ++ tail ∧
           (tail = [] ∨ ∃ voice, tail = [Await (ReplyVoice voice)])) ∧
  handle_message (voice_on u ∅) (quick_remote 1) chat u text 5 =
  [Call RequestsPost; Call TimeTime;
   Call RequestsGet; Call TimeTime; Call (TimeSleep 2);
   Call RequestsGet; Await (ReplyVoice (Some "U"))].
Proof.
  cbn zeta. split.
  - unfold handle_message, voice_mode, voice_on. rewrite lookup_insert_eq. cbn [default].
    destruct (generate_voice r text 30 fuel) as [[[voice| |]|] t]; cbn [snd].
    + exists [Await (ReplyVoice voice)]. split; [done|]. right. by exists voice.
    + exists []. split; [by rewrite app_nil_r|by left].
    + exists []. split; [by rewrite app_nil_r|by left].
    + exists []. split; [by rewrite app_nil_r|by left].
  - unfold handle_message, voice_mode, voice_on. rewrite lookup_insert_eq. reflexivity.
Qed.

(** ** The queue and its dispatch *)

Lemma step_queue (b : bot) : step b Queue = b.
Proof. destruct b as [q js s rm]. cbn. by destruct q. Qed.

Lemma run_app (b : bot) (events1 events2 : list event) :
  run b (events1 ++ events2) = run (run b events1) events2.
Proof. apply fold_left_app. Qed.

Lemma run_cons (b : bot) (e : event) (events : list event) :
  run b (e :: events) = run (step b e) events.
Proof. done. Qed.

(** C8: the /queue command leaves the queue as it found it, any number of
    them in a row leave the whole bot as it was, and taking the /queue
    commands out of a schedule changes nothing in the state it leads to, so
    every later run of [auto_post_loop] sends the same items. *)
Theorem queue_is_pure_read (b : bot) (events : list event) (n : nat) :
  snd (queue (post_queue b)) = post_queue b ∧
  run b (repeat Queue n) = b ∧
  run b (filter (λ e, e ≠ Queue) events) = run b events.
Proof.
  split; [by destruct (post_queue b)|]. split.
  - induction n as [|n IH]; [done|]. cbn [repeat]. by rewrite run_cons, step_queue.
  - revert b. induction events as [|e events IH]; intros b; [done|].
    destruct (decide (e = Queue)) as [->|Hne].
    + rewrite filter_cons_False by (intros H; by apply H).
      by rewrite run_cons, step_queue.
    + rewrite filter_cons_True by done. by rewrite !run_cons.
Qed.

Lemma post_appends (text : string) (now : datetime) (q : list post_item) :
  snd (post text now q) = q ++ snd (post text now []).
Proof.
  unfold post. destruct (_ || _); cbn [snd]; [by rewrite app_nil_r|].
  destruct (parse_post text now) as [[[[? ?] ?] ?]|]; cbn [snd]; [done|by rewrite app_nil_r].
Qed.

(** How the loop treats the item at its head. *)
Lemma is_due_readable (now : datetime) (x : post_item) :
  is_due now x = true → readable x = true.
Proof. unfold is_due, readable. by destruct (strptime (time x)). Qed.

Lemma readable_spec (x : post_item) : readable x = true ↔ YEAR1000_s <= time x.
Proof. unfold readable, strptime. destruct (Z.ltb_spec (time x) YEAR1000_s); split; (done || lia). Qed.

Lemma is_due_spec (now : datetime) (x : post_item) :
  is_due now x = true ↔ YEAR1000_s <= time x ∧ time x * 1000000 <= now.
Proof.
  unfold is_due, strptime. destruct (Z.ltb_spec (time x) YEAR1000_s).
  - split; [done|lia].
  - rewrite Z.leb_le. split; [done|by intros [_ ?]].
Qed.

Lemma loop_cons_due (now : datetime) (x : post_item) (rest : list post_item) :
  is_due now x = true → loop now (x :: rest) = Awaiting now x rest.
Proof.
  unfold is_due. cbn [loop]. destruct (strptime (time x)) as [t|]; [|done]. by intros ->.
Qed.

Lemma loop_cons_not_due (now : datetime) (x : post_item) (rest : list post_item) :
  readable x = true → is_due now x = false → loop now (x :: rest) = loop now rest.
Proof.
  unfold is_due, readable. cbn [loop]. destruct (strptime (time x)) as [t|]; [|done].
  by intros _ ->.
Qed.

Lemma loop_cons_unreadable (now : datetime) (x : post_item) (rest : list post_item) :
  readable x = false → loop now (x :: rest) = Raised ValueError.
Proof. unfold readable. cbn [loop]. by destruct (strptime (time x)). Qed.

Lemma readable_cases (now : datetime) (x : post_item) :
  readable x = false ∨ is_due now x = true ∨ (readable x = true ∧ is_due now x = false).
Proof.
  unfold readable, is_due. destruct (strptime (time x)) as [t|]; [|by left].
  destruct (t <=? now); [right; by left|right; by right].
Qed.

(** Where the loop stops: at the first due item of its snapshot. *)
Lemma loop_awaiting (now now' : datetime) (l rest : list post_item) (x : post_item) :
  loop now l = Awaiting now' x rest →
  now' = now ∧ is_due now x = true ∧
  ∃ skipped, l = skipped ++ x :: rest ∧
             Forall (λ y, is_due now y = false) skipped ∧
             Forall (λ y, readable y = true) skipped.
Proof.
  induction l as [|y l IH]; [done|].
  destruct (readable_cases now y) as [Hy|[Hy|[Hr Hy]]].
  - by rewrite loop_cons_unreadable.
  - rewrite loop_cons_due by done. intros [= <- <- <-].
    split; [done|]. split; [done|]. by exists [].
  - rewrite loop_cons_not_due by done. intros H.
    destruct (IH H) as (-> & Hx & skipped & -> & Hs & Hrs).
    split; [done|]. split; [done|]. exists (y :: skipped). split; [done|].
    split; by constructor.
Qed.

(** A run that finishes has read the time of every item of its snapshot. *)
Lemma loop_finished (now : datetime) (l : list post_item) :
  loop now l = Finished →
  Forall (λ y, is_due now y = false) l ∧ Forall (λ y, readable y = true) l.
Proof.
  induction l as [|y l IH]; [by split; constructor|].
  destruct (readable_cases now y) as [Hy|[Hy|[Hr Hy]]].
  - by rewrite loop_cons_unreadable.
  - by rewrite loop_cons_due.
  - rewrite loop_cons_not_due by done. intros H. destruct (IH H).
    split; by constructor.
Qed.

(** The loop raises only at an item whose time does not read back. *)
Lemma loop_not_raised (now : datetime) (l : list post_item) (e : exn) :
  Forall (λ y, readable y = true) l → loop now l ≠ Raised e.
Proof.
  induction 1 as [|y l Hy _ IH]; [done|].
  destruct (readable_cases now y) as [Hy'|[Hy'|[_ Hy']]].
  - congruence.
  - by rewrite loop_cons_due.
  - by rewrite loop_cons_not_due.
Qed.

Lemma remove_Permutation (x : post_item) (l l' : list post_item) :
  remove x l = Some l' → l ≡ₚ x :: l'.
Proof.
  revert l'. induction l as [|y l IH]; intros l'; [done|]. cbn [remove].
  destruct (decide (y = x)) as [->|Hne].
  - by intros [= ->].
  - destruct (remove x l) as [l0|]; [|done]. intros [= <-].
    rewrite (IH l0 eq_refl). apply Permutation_swap.
Qed.

Lemma remove_skips (x : post_item) (kept rest : list post_item) :
  x ∉ kept → remove x (kept ++ x :: rest) = Some (kept ++ rest).
Proof.
  induction kept as [|y kept IH]; intros Hx; cbn [app remove].
  - by rewrite decide_True.
  - apply not_elem_of_cons in Hx as [Hne Hx].
    rewrite decide_False by done. by rewrite IH.
Qed.

(** Every [send_photo] call is for an item due at the [now] of its run, in
    any schedule. *)
Lemma call_due (i : nat) (now : datetime) (l : list post_item) :
  Forall (λ c, is_due (snd (fst c)) (snd c) = true) (call i (loop now l)).
Proof.
  destruct (loop now l) as [now' x rest| |e] eqn:Hl; cbn; [|done..].
  apply loop_awaiting in Hl as (-> & Hx & _). by repeat constructor.
Qed.

Lemma step_sent_due (b : bot) (e : event) :
  Forall (λ c, is_due (snd (fst c)) (snd c) = true) (sent b) →
  Forall (λ c, is_due (snd (fst c)) (snd c) = true) (sent (step b e)).
Proof.
  intros H. destruct e as [text now| |now|i ok]; cbn [step sent]; try done.
  - apply Forall_app. split; [done|apply call_due].
  - destruct (jobs b !! i) as [[now x rest| |]|]; try done.
    unfold resume. destruct ok; [|cbn; by rewrite app_nil_r].
    destruct (remove x (post_queue b)); cbn [sent]; [|cbn; by rewrite app_nil_r].
    apply Forall_app. split; [done|apply call_due].
Qed.

Lemma run_sent_due (events : list event) (b : bot) :
  Forall (λ c, is_due (snd (fst c)) (snd c) = true) (sent b) →
  Forall (λ c, is_due (snd (fst c)) (snd c) = true) (sent (run b events)).
Proof.
  revert b. induction events as [|e events IH]; intros b H; [done|].
  rewrite run_cons. apply IH. by apply step_sent_due.
Qed.

(** What has been removed and what is queued make up what was posted, in
    any schedule: [post_queue.remove] takes out one item that is there. *)
Lemma step_removed (b : bot) (e : event) :
  map snd (removed (step b e)) ++ post_queue (step b e) ≡ₚ
  map snd (removed b) ++ post_queue b ++ posted [e].
Proof.
  destruct e as [text now| |now|i ok]; cbn [step removed post_queue posted flat_map].
  - by rewrite post_appends, app_nil_r.
  - rewrite app_nil_r. by destruct (post_queue b).
  - by rewrite app_nil_r.
  - rewrite app_nil_r. destruct (jobs b !! i) as [[now x rest| |]|]; try done.
    unfold resume. destruct ok; [|done].
    destruct (remove x (post_queue b)) as [q|] eqn:Hq; cbn [removed post_queue]; [|done].
    apply remove_Permutation in Hq. rewrite Hq.
    rewrite map_app. cbn [map snd]. by rewrite <- app_assoc.
Qed.

Lemma posted_app (events1 events2 : list event) :
  posted (events1 ++ events2) = posted events1 ++ posted events2.
Proof. apply flat_map_app. Qed.

Lemma run_removed (events : list event) (b : bot) :
  map snd (removed (run b events)) ++ post_queue (run b events) ≡ₚ
  map snd (removed b) ++ post_queue b ++ posted events.
Proof.
  revert b. induction events as [|e events IH]; intros b.
  - cbn. by rewrite app_nil_r.
  - rewrite run_cons, IH, app_assoc, step_removed.
    change (e :: events) with ([e] ++ events). rewrite posted_app.
    by rewrite <- !app_assoc.
Qed.

(** *** Schedules without overlapping runs *)

Ltac reassoc :=
  repeat (rewrite <- app_assoc || rewrite <- app_comm_cons); done.

Lemma awaited_app (js1 js2 : list job) : awaited (js1 ++ js2) = awaited js1 ++ awaited js2.
Proof. apply flat_map_app. Qed.

Lemma awaited_idle (js : list job) :
  Forall (λ j, suspended j = false) js → awaited js = [].
Proof. induction 1 as [|j js Hj _ IH]; [done|]. destruct j; by cbn. Qed.

Lemma call_awaited (i : nat) (j : job) : map snd (call i j) = awaited [j].
Proof. by destruct j. Qed.

Lemma idle_forallb (js : list job) :
  forallb (λ j, negb (suspended j)) js = true ↔ Forall (λ j, suspended j = false) js.
Proof.
  rewrite forallb_forall, Forall_forall. split; intros H j Hj.
  - apply negb_true_iff, H. by apply list_elem_of_In.
  - apply negb_true_iff, H. by apply list_elem_of_In.
Qed.

Lemma suspended_last (front : list job) (a j : job) (i : nat) :
  Forall (λ j, suspended j = false) front →
  (front ++ [a]) !! i = Some j → suspended j = true →
  i = length front ∧ j = a.
Proof.
  intros Hf Hi Hj. destruct (decide (i < length front)%nat) as [Hlt|Hge].
  - rewrite lookup_app_l in Hi by done.
    rewrite Forall_lookup in Hf. rewrite (Hf i j Hi) in Hj. done.
  - rewrite lookup_app_r in Hi by lia.
    destruct (i - length front)%nat as [|k] eqn:Hk; [|done].
    cbn in Hi. split; [lia|congruence].
Qed.

Lemma not_due_not_in (now : datetime) (x : post_item) (kept : list post_item) :
  Forall (λ y, is_due now y = false) kept → is_due now x = true → x ∉ kept.
Proof.
  intros Hk Hx Hin. rewrite Forall_forall in Hk. specialize (Hk x Hin). congruence.
Qed.

(** The phase reached from the loop head: the run goes on through [rest]
    with [kept] already passed over. *)
Lemma phase_loop (b : bot) (front : list job) (now : datetime)
    (rest kept extra : list post_item) :
  jobs b = front ++ [loop now rest] →
  Forall (λ j, suspended j = false) front →
  post_queue b = kept ++ rest ++ extra →
  Forall (λ y, is_due now y = false) kept →
  phase b.
Proof.
  intros Hj Hf Hq Hk. destruct (loop now rest) as [now' x rest'| |e] eqn:Hl.
  - apply loop_awaiting in Hl as (-> & Hx & skipped & -> & Hs & _).
    apply (Busy b front now x rest' (kept ++ skipped) extra); try done.
    + rewrite Hq. reassoc.
    + by apply Forall_app.
  - apply Idle. rewrite Hj. apply Forall_app. split; [done|]. by repeat constructor.
  - apply Idle. rewrite Hj. apply Forall_app. split; [done|]. by repeat constructor.
Qed.

(** What the return of a [send_photo] does when no runs overlap: it is the
    one of the last run, and its item is still in the queue. *)
Lemma busy_sent (b : bot) (i : nat) (ok : bool) (j : job) (front : list job)
    (now : datetime) (x : post_item) (rest kept extra : list post_item) :
  jobs b = front ++ [Awaiting now x rest] →
  Forall (λ j, suspended j = false) front →
  post_queue b = kept ++ x :: rest ++ extra →
  Forall (λ y, is_due now y = false) kept →
  is_due now x = true →
  jobs b !! i = Some j → suspended j = true →
  i = length front ∧
  step b (Sent i ok) =
  if ok then
    Bot (kept ++ rest ++ extra) (front ++ [loop now rest])
        (sent b ++ call (length front) (loop now rest))
        (removed b ++ [(length front, x)])
  else Bot (post_queue b) (front ++ [Raised SendError]) (sent b) (removed b).
Proof.
  intros Hj Hf Hq Hk Hx Hi Hsus. rewrite Hj in Hi.
  destruct (suspended_last front _ j i Hf Hi Hsus) as [-> ->]. split; [done|].
  cbn [step]. rewrite Hj, Hi. unfold resume.
  assert (∀ j', <[length front := j']> (front ++ [Awaiting now x rest]) = front ++ [j'])
    as Hins.
  { intros j'. rewrite insert_app_r_alt by lia. by rewrite Nat.sub_diag. }
  destruct ok.
  - rewrite Hq, remove_skips by by apply (not_due_not_in now). by rewrite Hins.
  - rewrite Hins. cbn [call]. by rewrite app_nil_r.
Qed.

Lemma step_phase (b : bot) (e : event) :
  phase b → exclusive b e = true → phase (step b e).
Proof.
  intros Hph Hal. destruct e as [text now| |now|i ok].
  - (* /post *)
    cbn [step]. destruct Hph as [Hf|front now' x rest kept extra Hj Hf Hq Hk Hx].
    + by apply Idle.
    + apply (Busy _ front now' x rest kept (extra ++ snd (post text now []))); try done.
      cbn [post_queue]. rewrite post_appends, Hq. reassoc.
  - by rewrite step_queue.
  - (* a run starts *)
    cbn [exclusive] in Hal. apply idle_forallb in Hal.
    apply (phase_loop _ (jobs b) now (post_queue b) [] []); try done.
    cbn [step post_queue]. by rewrite app_nil_r.
  - (* a send_photo returns or raises *)
    cbn [exclusive] in Hal. destruct (jobs b !! i) as [j|] eqn:Hi; [|done].
    destruct Hph as [Hf|front now x rest kept extra Hj Hf Hq Hk Hx].
    { rewrite Forall_lookup in Hf. by rewrite (Hf i j Hi) in Hal. }
    destruct (busy_sent b i ok j front now x rest kept extra) as [-> ->]; try done.
    destruct ok.
    + by apply (phase_loop _ front now rest kept extra).
    + apply Idle. cbn [jobs]. apply Forall_app. split; [done|]. by repeat constructor.
Qed.

Lemma allowed_exclusive (b : bot) (e : event) :
  allowed b e = true → exclusive b e = true.
Proof. destruct e as [| | |i ok]; try done. cbn. by intros [_ ?]%andb_true_iff. Qed.

Lemma run_sequential (events : list event) (b : bot) :
  phase b → sequential b events = true → phase (run b events).
Proof.
  revert b. induction events as [|e events IH]; intros b Hph Hseq; [done|].
  cbn [sequential] in Hseq. apply andb_true_iff in Hseq as [Hal Hseq].
  rewrite run_cons. apply IH; [by apply step_phase|done].
Qed.

(** With every [send_photo] returning as well: what was sent is what was
    removed and what is in flight; and no run raises while the times of the
    queued items read back. *)
Lemma step_serial (b : bot) (e : event) :
  phase b →
  map snd (sent b) ≡ₚ map snd (removed b) ++ awaited (jobs b) →
  allowed b e = true →
  map snd (sent (step b e)) ≡ₚ map snd (removed (step b e)) ++ awaited (jobs (step b e)) ∧
  (Forall (λ y, readable y = true) (post_queue b ++ posted [e]) →
   Forall (λ j, ∀ err, j ≠ Raised err) (jobs b) →
   Forall (λ y, readable y = true) (post_queue (step b e)) ∧
   Forall (λ j, ∀ err, j ≠ Raised err) (jobs (step b e))).
Proof.
  intros Hph Hsent Hal. destruct e as [text now| |now|i ok].
  - (* /post *)
    split; [done|]. cbn [step post_queue jobs posted flat_map].
    rewrite app_nil_r. intros Hr Hn. split; [|done]. by rewrite post_appends.
  - rewrite step_queue. split; [done|]. cbn [posted flat_map]. rewrite !app_nil_r.
    intros Hr Hn. by split.
  - (* a run starts *)
    cbn [step jobs sent removed post_queue posted flat_map]. split.
    + rewrite map_app, call_awaited, awaited_app, Hsent. by rewrite <- app_assoc.
    + rewrite !app_nil_r. intros Hr Hn. split; [done|].
      apply Forall_app. split; [done|]. repeat constructor.
      intros err. by apply loop_not_raised.
  - (* a send_photo returns *)
    cbn [allowed] in Hal. apply andb_true_iff in Hal as [-> Hal].
    destruct (jobs b !! i) as [j|] eqn:Hi; [|done].
    destruct Hph as [Hf|front now x rest kept extra Hj Hf Hq Hk Hx].
    { rewrite Forall_lookup in Hf. by rewrite (Hf i j Hi) in Hal. }
    destruct (busy_sent b i true j front now x rest kept extra) as [-> ->]; try done.
    cbn [sent removed jobs post_queue posted flat_map]. split.
    + rewrite Hj, awaited_app in Hsent. cbn in Hsent.
      rewrite !map_app, call_awaited, awaited_app, Hsent.
      rewrite (awaited_idle front Hf). by cbn [app map snd].
    + rewrite app_nil_r, Hq, Hj. intros Hr Hn.
      apply Forall_app in Hr as [Hkept Hr]. apply Forall_cons in Hr as [_ Hr].
      apply Forall_app in Hr as [Hrest Hextra]. apply Forall_app in Hn as [Hn _].
      split.
      * apply Forall_app. split; [done|]. by apply Forall_app.
      * apply Forall_app. split; [done|]. repeat constructor.
        intros err. by apply loop_not_raised.
Qed.

Lemma run_serial (events : list event) (b : bot) :
  phase b →
  map snd (sent b) ≡ₚ map snd (removed b) ++ awaited (jobs b) →
  serial b events = true →
  phase (run b events) ∧
  map snd (sent (run b events)) ≡ₚ
  map snd (removed (run b events)) ++ awaited (jobs (run b events)) ∧
  (Forall (λ y, readable y = true) (post_queue b ++ posted events) →
   Forall (λ j, ∀ err, j ≠ Raised err) (jobs b) →
   Forall (λ j, ∀ err, j ≠ Raised err) (jobs (run b events))).
Proof.
  revert b. induction events as [|e events IH]; intros b Hph Hsent Hser.
  { split; [done|]. split; [done|]. by intros _ ?. }
  cbn [serial] in Hser. apply andb_true_iff in Hser as [Hal Hser].
  destruct (step_serial b e Hph Hsent Hal) as [Hsent' Hquiet].
  pose proof (step_phase b e Hph (allowed_exclusive b e Hal)) as Hph'.
  rewrite run_cons. destruct (IH _ Hph' Hsent' Hser) as (H1 & H2 & H3).
  split; [done|]. split; [done|]. intros Hr Hn.
  change (e :: events) with ([e] ++ events) in Hr.
  rewrite posted_app, app_assoc in Hr. apply Forall_app in Hr as [Hr1 Hr2].
  destruct (Hquiet Hr1 Hn) as [Hq' Hn']. apply H3; [|done]. by apply Forall_app.
Qed.

Lemma count_app (x : post_item) (l1 l2 : list post_item) :
  count x (l1 ++ l2) = (count x l1 + count x l2)%nat.
Proof. unfold count. by rewrite filter_app, length_app. Qed.

Lemma count_Permutation (x : post_item) (l1 l2 : list post_item) :
  l1 ≡ₚ l2 → count x l1 = count x l2.
Proof. intros H. unfold count. by rewrite H. Qed.

Lemma count_elem_of (x : post_item) (l : list post_item) :
  x ∈ l → (1 <= count x l)%nat.
Proof.
  intros (l1 & l2 & ->)%list_elem_of_split. rewrite count_app. unfold count.
  rewrite filter_cons_True by done. cbn. lia.
Qed.

Lemma senders_count (x : post_item) (b : bot) :
  length (senders x b) = count x (map snd (sent b)).
Proof.
  unfold senders, count. rewrite length_map.
  induction (sent b) as [|c l IH]; [done|]. cbn [map].
  destruct (decide (snd c = x)) as [Hc|Hc].
  - rewrite !filter_cons_True by done. cbn. by rewrite IH.
  - by rewrite !filter_cons_False by done.
Qed.

(** An item in flight is still in the queue. *)
Lemma phase_awaited (b : bot) (x : post_item) :
  phase b → (count x (awaited (jobs b)) <= count x (post_queue b))%nat.
Proof.
  intros [Hf|front now y rest kept extra Hj Hf Hq Hk Hy].
  - rewrite awaited_idle by done. cbn. lia.
  - rewrite Hj, awaited_app, awaited_idle by done. cbn [app awaited flat_map].
    rewrite Hq, count_app. unfold count at 1.
    destruct (decide (y = x)) as [->|Hne].
    + rewrite filter_cons_True by done. cbn [filter length].
      pose proof (count_elem_of x (x :: rest ++ extra) ltac:(left)).
      rewrite filter_nil. cbn [length]. lia.
    + rewrite filter_cons_False by done. cbn. lia.
Qed.

(** C1: in a schedule where no run of [auto_post_loop] starts while another
    is suspended in [send_photo] and every [send_photo] returns (posts and
    /queue commands may come at any point), each item is sent and removed
    at most as many times as it was posted: the items sent and the items
    queued are the items posted and those whose [send_photo] is in flight.
    No run raises as long as the time of every posted item reads back, that
    is, falls in the year 1000 or later. *)
Theorem serial_exactly_once (events : list event) (x : post_item) :
  serial init events = true →
  let b := run init events in
  (count x (map snd (sent b)) + count x (post_queue b) =
   count x (posted events) + count x (awaited (jobs b)))%nat ∧
  (length (senders x b) <= count x (posted events))%nat ∧
  (count x (map snd (removed b)) <= count x (posted events))%nat ∧
  (Forall (λ y, readable y = true) (posted events) →
   Forall (λ j, ∀ e, j ≠ Raised e) (jobs b)).
Proof.
  intros Hser b.
  destruct (run_serial events init) as (Hph & Hsent & Hquiet);
    [by apply Idle; constructor|done|done|].
  fold b in Hph, Hsent, Hquiet.
  pose proof (run_removed events init) as Hrem. fold b in Hrem.
  cbn [init removed post_queue map app] in Hrem.
  apply (count_Permutation x) in Hsent, Hrem. rewrite count_app in Hsent, Hrem.
  pose proof (phase_awaited b x Hph). rewrite senders_count.
  split; [lia|]. split; [lia|]. split; [lia|].
  intros Hr. apply Hquiet; [done|constructor].
Qed.

Lemma serial_exactly_once_witness :
  let events := [Post "/post T|B|http://x|0" 63839664000900000;
                 Tick 63839664010000000; Post "/post U|B|http://y|0" 63839664011000000;
                 Sent 0 true; Tick 63839664020000000; Sent 1 true] in
  let x := PostItem "T" "B" "http://x" 63839664000 in
  let b := run init events in
  (count x (map snd (sent b)) + count x (post_queue b) =
   count x (posted events) + count x (awaited (jobs b)))%nat ∧
  (length (senders x b) <= count x (posted events))%nat ∧
  (count x (map snd (removed b)) <= count x (posted events))%nat ∧
  Forall (λ j, ∀ e, j ≠ Raised e) (jobs b).
Proof.
  intros events x b.
  destruct (serial_exactly_once events x eq_refl) as (H1 & H2 & H3 & H4).
  split; [exact H1|]. split; [exact H2|]. split; [exact H3|].
  apply H4. by repeat constructor.
Defined.

(** C1, as stated, fails: a second run starts while the first is suspended
    in [send_photo]; the item, posted once, is still in the queue, and both
    runs send it.  The second [post_queue.remove] raises. *)
Lemma overlapping_runs_send_twice :
  let events := [Post "/post T|B|http://x|0" 63839664000900000;
                 Tick 63839664010000000; Tick 63839664020000000;
                 Sent 0 true; Sent 1 true] in
  let x := PostItem "T" "B" "http://x" 63839664000 in
  let b := run init events in
  posted events = [x] ∧
  sent b = [(0%nat, 63839664010000000, x); (1%nat, 63839664020000000, x)] ∧
  senders x b = [0; 1]%nat ∧
  jobs b = [Finished; Raised ValueError] ∧
  ¬ (length (senders x b) <= 1)%nat.
Proof. vm_compute. repeat split. lia. Qed.

(** *** A failed [send_photo] *)

Lemma step_after_raise (b : bot) (e : event) (i : nat) (err : exn) :
  jobs b !! i = Some (Raised err) →
  jobs (step b e) !! i = Some (Raised err) ∧ sent_by i (step b e) = sent_by i b.
Proof.
  intros Hi. pose proof (lookup_lt_Some _ _ _ Hi) as Hlt.
  destruct e as [text now| |now|i' ok]; [done|by rewrite step_queue|cbn [step]..].
  - unfold sent_by. cbn [jobs sent]. split; [by rewrite lookup_app_l|].
    rewrite filter_app.
    assert (filter (λ c, fst (fst c) = i) (call (length (jobs b)) (auto_post_loop now (post_queue b))) = []) as ->.
    { destruct (auto_post_loop now _); [|done..]. cbn [call].
      rewrite filter_cons_False by (cbn; lia). done. }
    by rewrite app_nil_r.
  - destruct (jobs b !! i') as [[now x rest| |]|] eqn:Hi'; try done.
    assert (i' ≠ i) as Hne by (intros ->; congruence).
    destruct (resume ok now x rest (post_queue b)) as [j q].
    unfold sent_by. cbn [jobs sent].
    split; [by rewrite list_lookup_insert_ne|].
    rewrite filter_app.
    assert (filter (λ c, fst (fst c) = i) (call i' j) = []) as ->.
    { destruct j; [|done..]. cbn [call]. by rewrite filter_cons_False. }
    by rewrite app_nil_r.
Qed.

Lemma run_after_raise (events : list event) (b : bot) (i : nat) (err : exn) :
  jobs b !! i = Some (Raised err) →
  jobs (run b events) !! i = Some (Raised err) ∧ sent_by i (run b events) = sent_by i b.
Proof.
  revert b. induction events as [|e events IH]; intros b Hi; [done|].
  destruct (step_after_raise b e i err Hi) as [Hi' Hs].
  rewrite run_cons. destruct (IH _ Hi') as [? ->]. done.
Qed.

(** A suspended run is suspended on an item that was due at its [now], in
    any schedule. *)
Lemma step_awaiting_due (b : bot) (e : event) :
  Forall (λ j, ∀ now x rest, j = Awaiting now x rest → is_due now x = true) (jobs b) →
  Forall (λ j, ∀ now x rest, j = Awaiting now x rest → is_due now x = true)
         (jobs (step b e)).
Proof.
  intros H.
  assert (∀ now l now' x rest, loop now l = Awaiting now' x rest → is_due now' x = true)
    as Hloop.
  { intros now l now' x rest (-> & Hx & _)%loop_awaiting. done. }
  destruct e as [text now| |now|i ok]; [done|by rewrite step_queue|cbn [step]..].
  - cbn [jobs]. apply Forall_app. split; [done|]. repeat constructor.
    intros now' x rest. apply Hloop.
  - destruct (jobs b !! i) as [[now x rest| |]|] eqn:Hi; try done.
    unfold resume. destruct ok; [destruct (remove x (post_queue b))|]; cbn [jobs];
      apply Forall_insert; try done.
    intros now' x' rest'. apply Hloop.
Qed.

Lemma run_awaiting_due (events : list event) (b : bot) :
  Forall (λ j, ∀ now x rest, j = Awaiting now x rest → is_due now x = true) (jobs b) →
  Forall (λ j, ∀ now x rest, j = Awaiting now x rest → is_due now x = true)
         (jobs (run b events)).
Proof.
  revert b. induction events as [|e events IH]; intros b H; [done|].
  rewrite run_cons. by apply IH, step_awaiting_due.
Qed.

Lemma is_due_later (now now' : datetime) (x : post_item) :
  now <= now' → is_due now x = true → is_due now' x = true.
Proof.
  unfold is_due. destruct (strptime (time x)) as [t|]; [|done]. lia.
Qed.

(** C2: when the [send_photo] of a run raises, in any schedule, the run
    ends there.  The queue and the logs are exactly as they were: nothing is
    removed, the run sends nothing more whatever follows, and the failing
    item is due for every later run.  When no runs have overlapped, earlier
    failed sends or not, the failing item and the rest of the snapshot are
    therefore still in the queue. *)
Theorem failed_send_ends_run (events later : list event) (i : nat)
    (now : datetime) (x : post_item) (rest : list post_item) :
  jobs (run init events) !! i = Some (Awaiting now x rest) →
  let b := run init events in
  let b' := step b (Sent i false) in
  post_queue b' = post_queue b ∧ removed b' = removed b ∧ sent b' = sent b ∧
  jobs (run b' later) !! i = Some (Raised SendError) ∧
  sent_by i (run b' later) = sent_by i b ∧
  (∀ now', now <= now' → is_due now' x = true) ∧
  (sequential init events = true →
   x ∈ post_queue b' ∧ ∀ y, y ∈ rest → y ∈ post_queue b').
Proof.
  intros Hi b b'. fold b in Hi.
  assert (b' = Bot (post_queue b) (<[i := Raised SendError]> (jobs b)) (sent b) (removed b)) as Hb'.
  { unfold b'. cbn [step]. rewrite Hi. cbn. by rewrite app_nil_r. }
  pose proof (lookup_lt_Some _ _ _ Hi) as Hlt.
  destruct (run_after_raise later b' i SendError) as [Hr' Hs'].
  { rewrite Hb'. cbn [jobs]. by apply list_lookup_insert_eq. }
  split; [by rewrite Hb'|]. split; [by rewrite Hb'|]. split; [by rewrite Hb'|].
  split; [done|]. split; [rewrite Hs'; by rewrite Hb'|]. split.
  - intros now' Hle. apply (is_due_later now); [done|].
    pose proof (run_awaiting_due events init ltac:(constructor)) as Hdue.
    fold b in Hdue. rewrite Forall_lookup in Hdue. by eapply Hdue.
  - intros Hseq. rewrite Hb'. cbn [post_queue].
    pose proof (run_sequential events init ltac:(by apply Idle; constructor) Hseq) as Hph.
    fold b in Hph.
    destruct Hph as [Hf|front now0 x0 rest0 kept extra Hj Hf Hq Hk Hx].
    { rewrite Forall_lookup in Hf. by specialize (Hf i _ Hi). }
    rewrite Hj in Hi.
    destruct (suspended_last front _ _ i Hf Hi eq_refl) as [-> [= <- <- <-]].
    rewrite Hq. split; [set_solver|]. intros y Hy. set_solver.
Qed.

Lemma failed_send_ends_run_witness :
  let b := run init [post_T; post_U; Tick (t0 + 10000000); Sent 0 false;
                     Tick (t0 + 20000000)] in
  let later := [Tick (t0 + 30000000); Sent 1 true] in
  let b' := step b (Sent 1 false) in
  post_queue b' = post_queue b ∧ removed b' = removed b ∧ sent b' = sent b ∧
  jobs (run b' later) !! 1%nat = Some (Raised SendError) ∧
  sent_by 1 (run b' later) = sent_by 1 b ∧
  (∀ now', t0 + 20000000 <= now' → is_due now' item_T = true) ∧
  (item_T ∈ post_queue b' ∧ ∀ y, y ∈ [item_U] → y ∈ post_queue b').
Proof.
  cbv zeta.
  destruct (failed_send_ends_run
              [post_T; post_U; Tick (t0 + 10000000); Sent 0 false; Tick (t0 + 20000000)]
              [Tick (t0 + 30000000); Sent 1 true] 1 (t0 + 20000000) item_T [item_U]
              eq_refl) as (H1 & H2 & H3 & H4 & H5 & H6 & H7).
  split; [exact H1|]. split; [exact H2|]. split; [exact H3|]. split; [exact H4|].
  split; [exact H5|]. split; [exact H6|]. apply H7. reflexivity.
Defined.

(** C2, as stated, fails: two items are due, the [send_photo] of the first
    raises; the run ends without trying the second, nothing is removed, and
    the next run sends the first item again. *)
Lemma failed_send_stops_run_and_keeps_item :
  let b := run init [post_T; post_U; Tick (t0 + 10000000); Sent 0 false;
                     Tick (t0 + 20000000)] in
  is_due (t0 + 10000000) item_T = true ∧ is_due (t0 + 10000000) item_U = true ∧
  post_queue b = [item_T; item_U] ∧
  removed b = [] ∧
  sent_by 0 b = [item_T] ∧
  sent_by 1 b = [item_T] ∧
  jobs b = [Raised SendError; Awaiting (t0 + 20000000) item_T [item_U]].
Proof. vm_compute. repeat split. Qed.

(** *** When an item is sent *)

Lemma step_sent_mono (b : bot) (e : event) (c : nat * datetime * post_item) :
  c ∈ sent b → c ∈ sent (step b e).
Proof.
  intros Hc. destruct e as [text now| |now|i ok]; [done|by rewrite step_queue|cbn [step]..].
  - cbn [sent]. apply elem_of_app. by left.
  - destruct (jobs b !! i) as [[now x rest| |]|]; try done.
    destruct (resume ok now x rest (post_queue b)) as [j q]. cbn [sent].
    apply elem_of_app. by left.
Qed.

Ltac still_sent Hmono Hpassed :=
  let z := fresh "z" in
  let Hz := fresh "Hz" in
  let Hs := fresh "Hs" in
  intros z Hz; destruct (Hpassed z Hz) as [? Hs]; split; [done|];
  intros ?; by apply Hmono, Hs.

Lemma progress_loop (b : bot) (i : nat) (now : datetime)
    (q0 passed rest : list post_item) :
  jobs b !! i = Some (loop now rest) →
  q0 = passed ++ rest →
  (∀ c, c ∈ call i (loop now rest) → c ∈ sent b) →
  (∀ z, z ∈ passed →
        readable z = true ∧ (is_due now z = true → (i, now, z) ∈ sent b)) →
  progress b i now q0.
Proof.
  intros Hi -> Hcall Hpassed. unfold progress. rewrite Hi.
  destruct (loop now rest) as [now' y rest'| |e] eqn:Hl; [| |done].
  - apply loop_awaiting in Hl as (-> & Hy & skipped & -> & Hs & Hr).
    split; [done|]. split; [done|]. split; [apply Hcall; cbn; by left|].
    exists (passed ++ skipped). split; [by rewrite <- app_assoc|].
    intros z [Hz|Hz]%elem_of_app; [by apply Hpassed|].
    rewrite Forall_forall in Hs, Hr. split; [by apply Hr|].
    intros Hdue. specialize (Hs z Hz). congruence.
  - apply loop_finished in Hl as [Hs Hr].
    intros z [Hz|Hz]%elem_of_app; [by apply Hpassed|].
    rewrite Forall_forall in Hs, Hr. split; [by apply Hr|].
    intros Hdue. specialize (Hs z Hz). congruence.
Qed.

Lemma step_progress (b : bot) (e : event) (i : nat) (now : datetime)
    (q0 : list post_item) :
  progress b i now q0 → progress (step b e) i now q0.
Proof.
  intros Hp. pose proof (step_sent_mono b e) as Hmono.
  destruct e as [text now1| |now1|i' ok]; [done|by rewrite step_queue|..].
  - (* another run starts *)
    unfold progress in *. cbn [step jobs] in *.
    destruct (jobs b !! i) as [j|] eqn:Hi; [|done].
    rewrite lookup_app_l by (by apply lookup_lt_Some in Hi). rewrite Hi.
    destruct j as [now' y rest| |]; [| |done].
    + destruct Hp as (-> & Hdue & Hy & passed & -> & Hpassed).
      split; [done|]. split; [done|]. split; [by apply Hmono|].
      exists passed. split; [done|]. still_sent Hmono Hpassed.
    + still_sent Hmono Hp.
  - (* a send_photo returns or raises *)
    destruct (decide (i' = i)) as [->|Hne].
    + unfold progress in Hp. destruct (jobs b !! i) as [j|] eqn:Hi; [|done].
      destruct j as [now' y rest| |].
      * destruct Hp as (-> & Hdue & Hy & passed & -> & Hpassed).
        pose proof (lookup_lt_Some _ _ _ Hi) as Hlt.
        cbn [step] in *. rewrite Hi in *. unfold resume in *.
        destruct ok; [destruct (remove y (post_queue b)) as [q|]|].
        -- apply (progress_loop _ i now _ (passed ++ [y]) rest).
           ++ cbn [jobs]. by apply list_lookup_insert_eq.
           ++ by rewrite <- app_assoc.
           ++ intros c Hc. cbn [sent]. apply elem_of_app. by right.
           ++ intros z [Hz|Hz]%elem_of_app.
              ** revert z Hz. still_sent Hmono Hpassed.
              ** apply list_elem_of_singleton in Hz as ->.
                 split; [by apply (is_due_readable now)|]. intros _. by apply Hmono.
        -- unfold progress. cbn [jobs]. by rewrite list_lookup_insert_eq.
        -- unfold progress. cbn [jobs]. by rewrite list_lookup_insert_eq.
      * unfold progress. cbn [step]. rewrite Hi. by rewrite Hi.
      * unfold progress. cbn [step]. rewrite Hi. by rewrite Hi.
    + unfold progress in *. cbn [step] in *.
      destruct (jobs b !! i') as [[now' y' rest'| |]|] eqn:Hi'; try done.
      destruct (resume ok now' y' rest' (post_queue b)) as [j' q] eqn:Hres.
      cbn [jobs] in *. rewrite list_lookup_insert_ne by done.
      destruct (jobs b !! i) as [[now2 y rest| |]|]; try done.
      * destruct Hp as (-> & Hdue & Hy & passed & -> & Hpassed).
        split; [done|]. split; [done|]. split; [by apply Hmono|].
        exists passed. split; [done|]. still_sent Hmono Hpassed.
      * still_sent Hmono Hp.
Qed.

Lemma run_progress (events : list event) (b : bot) (i : nat) (now : datetime)
    (q0 : list post_item) :
  progress b i now q0 → progress (run b events) i now q0.
Proof.
  revert b. induction events as [|e events IH]; intros b Hp; [done|].
  rewrite run_cons. by apply IH, step_progress.
Qed.

Lemma tick_progress (b : bot) (now : datetime) :
  progress (step b (Tick now)) (length (jobs b)) now (post_queue b).
Proof.
  apply (progress_loop _ _ now _ [] (post_queue b)).
  - cbn [step jobs]. rewrite lookup_app_r by lia. by rewrite Nat.sub_diag.
  - done.
  - intros c Hc. cbn [step sent]. apply elem_of_app. by right.
  - intros z Hz. by apply elem_of_nil in Hz.
Qed.

(** An uninterrupted run: from its loop head, when each of its [send_photo]
    calls returns before anything else happens, it goes through the items
    [good] whose times read back: it sends the due ones in order and removes
    them, and is then at the head of what follows, [tail], where it does not
    call [send_photo]. *)
Lemma loop_drains (front : list job) (now : datetime) (extra tail good : list post_item) :
  ∀ (b : bot) (kept : list post_item) (before : list (nat * datetime * post_item)),
  Forall (λ y, readable y = true) good →
  suspended (loop now tail) = false →
  jobs b = front ++ [loop now (good ++ tail)] →
  post_queue b = kept ++ good ++ tail ++ extra →
  Forall (λ y, is_due now y = false) kept →
  sent b = before ++ call (length front) (loop now (good ++ tail)) →
  let due := filter (λ y, is_due now y = true) good in
  let b' := run b (repeat (Sent (length front) true) (length due)) in
  jobs b' = front ++ [loop now tail] ∧
  post_queue b' = kept ++ filter (λ y, is_due now y = false) good ++ tail ++ extra ∧
  sent b' = before ++ map (λ y, (length front, now, y)) due ∧
  removed b' = removed b ++ map (λ y, (length front, y)) due.
Proof.
  induction good as [|z good IH]; intros b kept before Hr Htail Hj Hq Hk Hs; cbv zeta in *.
  - cbn [app] in *. cbn [filter list_filter length repeat run fold_left map].
    rewrite !app_nil_r. split; [done|]. split; [done|]. split; [|done].
    rewrite Hs. destruct (loop now tail); [done|by rewrite app_nil_r..].
  - apply Forall_cons in Hr as [Hz Hr]. cbn [app] in Hj, Hq, Hs.
    destruct (is_due now z) eqn:Hdue.
    + rewrite loop_cons_due in Hj, Hs by done.
      rewrite filter_cons_True by done. rewrite filter_cons_False by congruence.
      cbn [length repeat map]. rewrite run_cons.
      assert (jobs b !! length front = Some (Awaiting now z (good ++ tail))) as Hi.
      { rewrite Hj, lookup_app_r by lia. by rewrite Nat.sub_diag. }
      set (b1 := Bot (kept ++ good ++ tail ++ extra) (front ++ [loop now (good ++ tail)])
                     ((before ++ [(length front, now, z)]) ++
                      call (length front) (loop now (good ++ tail)))
                     (removed b ++ [(length front, z)])).
      assert (step b (Sent (length front) true) = b1) as ->.
      { cbn [step]. rewrite Hi. unfold resume.
        rewrite Hq. rewrite remove_skips by by apply (not_due_not_in now).
        rewrite Hj, insert_app_r_alt by lia. rewrite Nat.sub_diag. cbn [insert list_insert].
        by rewrite Hs. }
      destruct (IH b1 kept (before ++ [(length front, now, z)]) Hr Htail
                  eq_refl eq_refl Hk eq_refl) as (H1 & H2 & H3 & H4).
      rewrite H1, H2, H3, H4. cbn [removed b1].
      split; [done|]. split; [done|]. split; by rewrite <- app_assoc.
    + rewrite loop_cons_not_due in Hj, Hs by done.
      rewrite filter_cons_False by congruence. rewrite filter_cons_True by done.
      destruct (IH b (kept ++ [z]) before) as (H1 & H2 & H3 & H4); try done.
      { rewrite Hq. reassoc. }
      { apply Forall_app. split; [done|]. by repeat constructor. }
      rewrite H1, H2, H3, H4.
      split; [done|]. split; [reassoc|done].
Qed.

(** A whole tick on a queue whose times all read back: the due items are
    sent in queue order and removed, the others stay. *)
Lemma tick_drains (b : bot) (now : datetime) :
  Forall (λ y, readable y = true) (post_queue b) →
  let i := length (jobs b) in
  let due := filter (λ y, is_due now y = true) (post_queue b) in
  let b' := run b (Tick now :: repeat (Sent i true) (length due)) in
  jobs b' = jobs b ++ [Finished] ∧
  post_queue b' = filter (λ y, is_due now y = false) (post_queue b) ∧
  sent b' = sent b ++ map (λ y, (i, now, y)) due ∧
  removed b' = removed b ++ map (λ y, (i, y)) due.
Proof.
  intros Hr. cbv zeta. rewrite run_cons.
  destruct (loop_drains (jobs b) now [] [] (post_queue b) (step b (Tick now)) [] (sent b))
    as (H1 & H2 & H3 & H4); try done.
  { cbn [step jobs auto_post_loop]. by rewrite app_nil_r. }
  { cbn [step post_queue]. by rewrite !app_nil_r. }
  { cbn [step sent auto_post_loop]. by rewrite app_nil_r. }
  rewrite H1, H2, H3, H4. by rewrite !app_nil_r.
Qed.

(** A whole tick on a queue with an item whose time does not read back: the
    run goes through the items before the first such item and raises
    there. *)
Lemma tick_raises (b : bot) (now : datetime) (good behind : list post_item)
    (bad : post_item) :
  post_queue b = good ++ bad :: behind →
  Forall (λ y, readable y = true) good →
  readable bad = false →
  let i := length (jobs b) in
  let due := filter (λ y, is_due now y = true) good in
  let b' := run b (Tick now :: repeat (Sent i true) (length due)) in
  jobs b' = jobs b ++ [Raised ValueError] ∧
  post_queue b' = filter (λ y, is_due now y = false) good ++ bad :: behind ∧
  sent b' = sent b ++ map (λ y, (i, now, y)) due ∧
  removed b' = removed b ++ map (λ y, (i, y)) due.
Proof.
  intros Hq Hr Hbad. cbv zeta. rewrite run_cons.
  destruct (loop_drains (jobs b) now [] (bad :: behind) good (step b (Tick now)) []
              (sent b)) as (H1 & H2 & H3 & H4); try done.
  { by rewrite loop_cons_unreadable. }
  { cbn [step jobs auto_post_loop]. by rewrite Hq. }
  { cbn [step post_queue]. by rewrite Hq, !app_nil_r. }
  { cbn [step sent auto_post_loop]. by rewrite Hq. }
  rewrite H1, H2, H3, H4. rewrite loop_cons_unreadable by done. by rewrite !app_nil_r.
Qed.

(** The scenarios of the specification: an item posted with offset five
    minutes is not sent by the tick four minutes later, is sent and removed
    by the tick five minutes later, and the tick after that sends nothing. *)
Example five_minutes_scenario :
  let x := PostItem "T" "B" "http://x" 63839664300 in
  let posted := run init [Post "/post T|B|http://x|5" t0] in
  let early := run posted [Tick (t0 + 4 * 60 * 1000000)] in
  let on_time := run early [Tick (t0 + 5 * 60 * 1000000); Sent 1 true] in
  let late := run on_time [Tick (t0 + 6 * 60 * 1000000)] in
  post_queue posted = [x] ∧
  sent early = [] ∧ post_queue early = [x] ∧
  sent on_time = [(1%nat, t0 + 5 * 60 * 1000000, x)] ∧ post_queue on_time = [] ∧
  sent late = sent on_time ∧ jobs late = [Finished; Finished; Finished].
Proof. vm_compute. repeat split. Qed.

(** ** The /post command *)

Lemma fields_partition (sep : ascii) (s : string) :
  fields sep s =
  match partition sep s with
  | (h, None) => [h]
  | (h, Some r) => h :: fields sep r
  end.
Proof.
  induction s as [|c s IH]; [done|]. cbn [fields partition].
  destruct (Ascii.eqb c sep); [done|]. rewrite IH.
  by destruct (partition sep s) as [h [r|]].
Qed.

Lemma partition_contains (sep : ascii) (s h r : string) :
  partition sep s = (h, Some r) → contains sep s = true.
Proof.
  revert h. induction s as [|c s IH]; intros h; [done|]. cbn [partition contains].
  destruct (Ascii.eqb c sep); [done|].
  destruct (partition sep s) as [h' [r'|]]; [|done]. intros [= <- <-]. by apply (IH h').
Qed.

Lemma partition_whole (sep : ascii) (s h : string) :
  partition sep s = (h, None) → h = s.
Proof.
  revert h. induction s as [|c s IH]; intros h; cbn [partition].
  - by intros [= <-].
  - destruct (Ascii.eqb c sep); [done|].
    destruct (partition sep s) as [h' [r'|]]; [done|]. intros [= <-].
    by rewrite (IH h' eq_refl).
Qed.

Lemma fields_nonempty (sep : ascii) (s : string) : (1 <= length (fields sep s))%nat.
Proof.
  rewrite fields_partition. destruct (partition sep s) as [h [r|]]; cbn; lia.
Qed.

(** With no more fields than [maxsplit] allows, [split] gives them all. *)
Lemma split_fields (sep : ascii) (n : nat) : ∀ s,
  (length (fields sep s) <= S n)%nat → split sep n s = fields sep s.
Proof.
  induction n as [|n IH]; intros s; rewrite fields_partition;
    destruct (partition sep s) as [h [r|]] eqn:Hp; cbn [length split].
  - pose proof (fields_nonempty sep r). lia.
  - intros _. by rewrite (partition_whole sep s h Hp).
  - rewrite Hp. intros Hlen. by rewrite IH by lia.
  - by rewrite Hp.
Qed.

(** With more fields, the last part [split] gives holds a separator. *)
Lemma split_overflow (sep : ascii) (n : nat) : ∀ s,
  (S n < length (fields sep s))%nat →
  ∃ parts last, split sep n s = parts ++ [last] ∧ length parts = n ∧
                contains sep last = true.
Proof.
  induction n as [|n IH]; intros s; rewrite fields_partition;
    destruct (partition sep s) as [h [r|]] eqn:Hp; cbn [length]; try lia.
  - intros _. exists [], s. split; [done|]. split; [done|].
    by apply (partition_contains sep s h r).
  - intros Hlen. destruct (IH r) as (parts & last & Hs & Hl & Hc); [lia|].
    exists (h :: parts), last. cbn [split]. rewrite Hp, Hs. split; [done|].
    split; [cbn; lia|done].
Qed.

(** A pipe survives [strip] and no text with a pipe is read by [int]. *)
Lemma lstrip_contains (space : ascii → bool) (c : ascii) (s : string) :
  space c = false → contains c s = true → contains c (lstrip space s) = true.
Proof.
  intros Hc. induction s as [|a s IH]; [done|]. cbn [lstrip].
  destruct (space a) eqn:Ha; [|done]. cbn [contains].
  destruct (Ascii.eqb_spec a c) as [->|_]; [congruence|]. exact IH.
Qed.

Lemma rstrip_contains (space : ascii → bool) (c : ascii) (s : string) :
  space c = false → contains c s = true → contains c (rstrip space s) = true.
Proof.
  intros Hc. induction s as [|a s IH]; [done|]. cbn [rstrip contains].
  destruct (Ascii.eqb_spec a c) as [->|Hne]; cbn [orb].
  - intros _. rewrite Hc. destruct (rstrip space s); cbn [contains]; by rewrite Ascii.eqb_refl.
  - intros Hs. specialize (IH Hs). destruct (rstrip space s) as [|a' r]; [done|].
    cbn [contains] in *. rewrite IH. by destruct (Ascii.eqb a c).
Qed.

Lemma strip_contains (c : ascii) (s : string) :
  isspace c = false → contains c s = true → contains c (strip s) = true.
Proof. intros Hc Hs. by apply rstrip_contains, lstrip_contains. Qed.

Lemma digits_rejects_pipe (s : string) : ∀ acc after_digit,
  contains "|" s = true → digits acc after_digit s = None.
Proof.
  induction s as [|a s IH]; intros acc after_digit; [done|]. cbn [contains digits].
  destruct (Ascii.eqb_spec a "|") as [->|Hne]; [done|]. cbn [orb]. intros Hs.
  destruct (digit a); [by apply IH|].
  destruct (Ascii.eqb a "_" && after_digit); [by apply IH|done].
Qed.

Lemma int_rejects_pipe (s : string) : contains "|" s = true → int s = None.
Proof.
  intros Hs. apply (lstrip_contains int_space "|" s eq_refl) in Hs.
  apply (rstrip_contains int_space "|" _ eq_refl) in Hs. unfold int.
  destruct (rstrip int_space (lstrip int_space s)) as [|a r]; [done|].
  cbn [contains] in Hs.
  destruct (Ascii.eqb_spec a "+") as [->|_].
  { cbn in Hs. by rewrite digits_rejects_pipe. }
  destruct (Ascii.eqb_spec a "-") as [->|_].
  { cbn in Hs. by rewrite digits_rejects_pipe. }
  by apply digits_rejects_pipe.
Qed.

(** C4: a /post whose text has no payload after the command word, whose
    payload does not have exactly four fields between pipes, or whose fourth
    field is not read by [int] (white space aside: an optional sign, then
    decimal digits), is answered "Invalid format" and leaves the queue as it
    was. *)
Theorem post_rejects_malformed (text : string) (now : datetime) (q : list post_item) :
  well_formed text = false → post text now q = (InvalidFormat, q).
Proof.
  unfold well_formed, post. intros Hwf.
  destruct (_ || _); [done|].
  enough (parse_post text now = None) as -> by done.
  unfold parse_post. destruct (partition " " text) as [? [payload|]]; [|done].
  destruct (decide (length (fields "|" payload) <= 4)%nat) as [Hle|Hgt].
  - rewrite split_fields by done.
    destruct (fields "|" payload) as [|a [|b [|c [|d [|e l]]]]]; try done.
    cbn [length nth] in Hwf. rewrite Nat.eqb_refl in Hwf. cbn [andb map] in Hwf |- *.
    by destruct (int (strip d)).
  - destruct (split_overflow "|" 3 payload) as (parts & last & -> & Hl & Hc); [lia|].
    destruct parts as [|a [|b [|c [|d l]]]]; try done. cbn [app map].
    rewrite int_rejects_pipe; [done|]. by apply strip_contains.
Qed.

Lemma post_rejects_malformed_witness :
  post "/post Title|Body|http://x" t0 [item_T] = (InvalidFormat, [item_T]).
Proof.
  apply (post_rejects_malformed "/post Title|Body|http://x" t0 [item_T]). reflexivity.
Defined.

(** C4, as stated, fails: the minutes field -5 is not a non-negative
    integer, yet the command is answered "Post scheduled" and the item is
    appended, due five minutes before the command. *)
Lemma negative_minutes_are_scheduled :
  well_formed_spec "/post T|B|http://x|-5" = false ∧
  post "/post T|B|http://x|-5" t0 [] =
  (PostScheduled (t0 - 5 * 60 * 1000000), [PostItem "T" "B" "http://x" 63839663700]).
Proof. vm_compute. by split. Qed.

Example post_schedules_ten_minutes_out :
  post "/post Title|Body|http://x|10" t0 [] =
  (PostScheduled (t0 + 10 * 60 * 1000000), [PostItem "Title" "Body" "http://x" 63839664600]).
Proof. reflexivity. Qed.

Example post_rejects_five_fields :
  post "/post a|b|c|10|x" t0 [] = (InvalidFormat, []).
Proof. reflexivity. Qed.

Example post_rejects_overflow :
  post "/post a|b|c|99999999999999999999" t0 [] = (InvalidFormat, []).
Proof. reflexivity. Qed.

Example int_reads :
  int " +1_0 " = Some 10 ∧ int "1__0" = None ∧ int "_1" = None ∧
  int "1_" = None ∧ int "-" = None ∧ int "007" = Some 7 ∧ int "" = None ∧
  int "- 5" = None ∧ int "+-5" = None.
Proof. repeat split. Qed.

(** ** From the /post command to the dispatch tick *)

Lemma partition_rest_contains (sep c : ascii) (s h r : string) :
  partition sep s = (h, Some r) → contains c r = true → contains c s = true.
Proof.
  revert h. induction s as [|a s IH]; intros h; [done|]. cbn [partition contains].
  destruct (Ascii.eqb a sep).
  - intros [= _ <-] ->. by rewrite orb_true_r.
  - destruct (partition sep s) as [h' [r'|]]; [|done]. intros [= _ <-] Hr.
    rewrite (IH h' eq_refl Hr). by rewrite orb_true_r.
Qed.

Lemma fields_contains (sep : ascii) (s : string) :
  (2 <= length (fields sep s))%nat → contains sep s = true.
Proof.
  rewrite fields_partition. destruct (partition sep s) as [h [r|]] eqn:Hp.
  - intros _. by apply (partition_contains sep s h r).
  - cbn. lia.
Qed.

(** What [post] does with a text whose payload has four fields, the fourth
    one read by [int] as [m]. *)
Lemma post_parsed (text h payload a b c d : string) (m : Z)
    (now : datetime) (q : list post_item) :
  partition " " text = (h, Some payload) →
  fields "|" payload = [a; b; c; d] →
  int (strip d) = Some m →
  post text now q =
  match td ← timedelta_minutes m; datetime_add now td with
  | Some s => (PostScheduled s, q ++ [PostItem (strip a) (strip b) (strip c) (strftime s)])
  | None => (InvalidFormat, q)
  end.
Proof.
  intros Hp Hf Hm.
  assert (contains "|" text = true) as Hpipe.
  { apply (partition_rest_contains " " "|" text h payload Hp).
    apply fields_contains. rewrite Hf. cbn. lia. }
  assert (String.eqb text "" = false) as Hne.
  { destruct text; [done|]. done. }
  unfold post. rewrite Hne, Hpipe. cbn [orb negb].
  unfold parse_post. rewrite Hp, split_fields by (rewrite Hf; cbn; lia).
  rewrite Hf. cbn [map]. rewrite Hm. cbn [mbind option_bind].
  destruct (timedelta_minutes m) as [td|]; [|done]. cbn [mbind option_bind].
  by destruct (datetime_add now td).
Qed.

(** What a /post that answers "Post scheduled" has appended. *)
Lemma post_scheduled (text : string) (now s : datetime) (q q' : list post_item) :
  post text now q = (PostScheduled s, q') →
  ∃ title message link d,
    q' = q ++ [PostItem title message link (strftime s)] ∧
    s = now + d * 60 * 1000000.
Proof.
  unfold post. destruct (_ || _); [done|].
  destruct (parse_post text now) as [[[[title message] link] s']|] eqn:Hp; [|done].
  intros [= <- <-]. exists title, message, link.
  unfold parse_post in Hp.
  destruct (partition " " text) as [? [payload|]]; [|done].
  destruct (map strip (split "|" 3 payload)) as [|? [|? [|? [|minutes [|]]]]]; try done.
  destruct (int minutes) as [d|]; [|done]. cbn [mbind option_bind] in Hp.
  unfold timedelta_minutes in Hp. destruct (_ && _) in Hp; [|done].
  cbn [mbind option_bind] in Hp.
  unfold datetime_add in Hp. destruct (_ && _) in Hp; [|done].
  cbn [mbind option_bind] in Hp. injection Hp as _ _ _ <-. by exists d.
Qed.

(** The text written for the date [s] reads back when [s] is of the year
    1000 or later. *)
Lemma strftime_readable (s : datetime) :
  YEAR1000_s <= strftime s ↔ YEAR1000_s * 1000000 <= s.
Proof.
  unfold strftime, YEAR1000_s.
  pose proof (Z.div_mod s 1000000 ltac:(lia)).
  pose proof (Z.mod_pos_bound s 1000000 ltac:(lia)). lia.
Qed.

(** C3: a /post at [now0] whose fourth field reads as [d] minutes, when
    accepted, appends the item carrying the second in which
    [now0 + d] minutes falls.  The item is due from that second on, provided
    the date is of the year 1000 or later (otherwise its time never reads
    back).  In any schedule no run sends it with a [now] before that second.
    A run that starts at or after that second with the item in the queue
    sends it and removes it when each of its [send_photo] calls returns at
    once and the times of the queued items read back; in any schedule, such
    a run has sent it by the time it finishes. *)
Theorem dispatch_eligibility (text h payload a b c m : string) (d : Z)
    (now0 s : datetime) (q q' : list post_item) :
  partition " " text = (h, Some payload) →
  fields "|" payload = [a; b; c; m] →
  int (strip m) = Some d →
  post text now0 q = (PostScheduled s, q') →
  let x := PostItem (strip a) (strip b) (strip c) (strftime s) in
  q' = q ++ [x] ∧ s = now0 + d * 60 * 1000000 ∧
  (∀ now, is_due now x = true ↔
          YEAR1000_s * 1000000 <= s ∧ s / 1000000 * 1000000 <= now) ∧
  (∀ events i now,
      (i, now, x) ∈ sent (run init events) → s / 1000000 * 1000000 <= now) ∧
  (∀ b0 now,
      let i := length (jobs b0) in
      let due := filter (λ y, is_due now y = true) (post_queue b0) in
      let b1 := run b0 (Tick now :: repeat (Sent i true) (length due)) in
      x ∈ post_queue b0 →
      Forall (λ y, readable y = true) (post_queue b0) →
      s / 1000000 * 1000000 <= now →
      jobs b1 !! i = Some Finished ∧ (i, now, x) ∈ sent b1 ∧ x ∉ post_queue b1) ∧
  (∀ events0 events1 now,
      let b0 := run init events0 in
      let b1 := run b0 (Tick now :: events1) in
      x ∈ post_queue b0 →
      s / 1000000 * 1000000 <= now →
      jobs b1 !! length (jobs b0) = Some Finished →
      (length (jobs b0), now, x) ∈ sent b1).
Proof.
  intros Hp Hf Hm Hpost x.
  rewrite (post_parsed text h payload a b c m d now0 q Hp Hf Hm) in Hpost.
  assert (q' = q ++ [x] ∧ s = now0 + d * 60 * 1000000) as [-> Hs].
  { unfold timedelta_minutes, datetime_add in Hpost.
    destruct (_ && _) in Hpost; [|done]. cbn [mbind option_bind] in Hpost.
    destruct (_ && _) in Hpost; [|done]. by injection Hpost as <- <-. }
  assert (∀ now, is_due now x = true ↔
                 YEAR1000_s * 1000000 <= s ∧ s / 1000000 * 1000000 <= now) as Hdue.
  { intros now. rewrite is_due_spec, <- strftime_readable. done. }
  split; [done|]. split; [done|]. split; [done|]. split; [|split].
  - intros events i now Hin.
    pose proof (run_sent_due events init ltac:(constructor)) as Hall.
    rewrite Forall_forall in Hall. apply (Hdue now). exact (Hall _ Hin).
  - intros b0 now i due b1 Hx Hr Hnow.
    assert (is_due now x = true) as Hxdue.
    { apply Hdue. split; [|done]. apply strftime_readable.
      apply (proj1 (readable_spec x)). rewrite Forall_forall in Hr. by apply Hr. }
    destruct (tick_drains b0 now Hr) as (H1 & H2 & H3 & _). fold i due b1 in H1, H2, H3.
    rewrite H1, H2, H3. split; [|split].
    + rewrite lookup_app_r by (unfold i; lia). unfold i. by rewrite Nat.sub_diag.
    + apply elem_of_app. right. apply list_elem_of_fmap. eexists. split; [done|].
      unfold due. by apply list_elem_of_filter.
    + intros [Hno _]%list_elem_of_filter. congruence.
  - intros events0 events1 now b0 b1 Hx Hnow Hfin.
    pose proof (run_progress events1 _ _ _ _ (tick_progress b0 now)) as Hprog.
    unfold progress in Hprog. fold (run b0 (Tick now :: events1)) in Hprog.
    change (run (step b0 (Tick now)) events1) with b1 in Hprog.
    rewrite Hfin in Hprog. destruct (Hprog x Hx) as [Hr Hsent]. apply Hsent.
    apply Hdue. split; [|done]. apply strftime_readable.
    by apply (proj1 (readable_spec x)).
Qed.

Lemma dispatch_eligibility_witness :
  let s := 63839664060900000 in
  let x := PostItem (strip "T") (strip "B") (strip "http://x") (strftime s) in
  [item_U; PostItem "T" "B" "http://x" 63839664060] = [item_U] ++ [x] ∧
  s = t0 + 1 * 60 * 1000000 ∧
  (∀ now, is_due now x = true ↔
          YEAR1000_s * 1000000 <= s ∧ s / 1000000 * 1000000 <= now) ∧
  (∀ events i now,
      (i, now, x) ∈ sent (run init events) → s / 1000000 * 1000000 <= now) ∧
  (∀ b0 now,
      let i := length (jobs b0) in
      let due := filter (λ y, is_due now y = true) (post_queue b0) in
      let b1 := run b0 (Tick now :: repeat (Sent i true) (length due)) in
      x ∈ post_queue b0 →
      Forall (λ y, readable y = true) (post_queue b0) →
      s / 1000000 * 1000000 <= now →
      jobs b1 !! i = Some Finished ∧ (i, now, x) ∈ sent b1 ∧ x ∉ post_queue b1) ∧
  (∀ events0 events1 now,
      let b0 := run init events0 in
      let b1 := run b0 (Tick now :: events1) in
      x ∈ post_queue b0 →
      s / 1000000 * 1000000 <= now →
      jobs b1 !! length (jobs b0) = Some Finished →
      (length (jobs b0), now, x) ∈ sent b1).
Proof.
  exact (dispatch_eligibility "/post T|B|http://x|1" "/post" "T|B|http://x|1"
           "T" "B" "http://x" "1" 1 t0 63839664060900000
           [item_U] [item_U; PostItem "T" "B" "http://x" 63839664060]
           eq_refl eq_refl eq_refl eq_refl).
Defined.

(** C3, as stated, fails: the /post comes at 00:00:00.9 with offset one
    minute, so the item is due at 00:01:00.9; it is stored as 00:01:00 and
    the run of 00:01:00.5 sends it. *)
Lemma sent_before_offset_elapsed :
  let x := PostItem "T" "B" "http://x" 63839664060 in
  let now := t0 + 59600000 in
  post "/post T|B|http://x|1" t0 [] = (PostScheduled (t0 + 1 * 60 * 1000000), [x]) ∧
  sent (run init [Post "/post T|B|http://x|1" t0; Tick now]) = [(0%nat, now, x)] ∧
  now < t0 + 1 * 60 * 1000000.
Proof. vm_compute. repeat split. Qed.

(** * Further properties of the code *)

(** ** The registry *)

Lemma handle_mode_last (cs : list mode_command) (u : Z) (m : gmap Z bool) :
  fold_left handle_mode cs m !! u =
  match last_mode u cs with Some flag => Some flag | None => m !! u end.
Proof.
  revert m. induction cs as [|c cs IH]; intros m; [done|].
  cbn [fold_left last_mode]. rewrite IH.
  destruct (last_mode u cs) as [flag|]; [done|].
  destruct (decide (mode_user c = u)) as [<-|Hne].
  - destruct c; cbn; unfold voice_on, voice_off; by rewrite lookup_insert_eq.
  - destruct c; cbn in *; unfold voice_on, voice_off; by rewrite lookup_insert_ne.
Qed.

(** X1: after any sequence of /voice_on and /voice_off commands the mode a
    user reads is the one that user's last command set, whatever the other
    users did; a user with no command in the sequence reads what the registry
    said before. *)
Theorem voice_mode_last_command (cs : list mode_command) (u : Z) (m : gmap Z bool) :
  voice_mode u (fold_left handle_mode cs m) =
  match last_mode u cs with Some flag => flag | None => voice_mode u m end.
Proof.
  unfold voice_mode. rewrite handle_mode_last. by destruct (last_mode u cs).
Qed.

(** ** The /post command, accepted *)

(** X3: a /post whose payload has exactly four fields and whose fourth
    field [int] reads as [m] is accepted exactly when the date [m] minutes
    from now is a date of the years 1 to 9999.  It then appends one item
    with the three stripped fields and that date cut to its second;
    otherwise it answers "Invalid format" and leaves the queue as it was. *)
Theorem post_accepts_in_range (text h payload a b c d : string) (m : Z)
    (now : datetime) (q : list post_item) :
  partition " " text = (h, Some payload) →
  fields "|" payload = [a; b; c; d] →
  int (strip d) = Some m →
  MINYEAR_us <= now <= MAXYEAR_us →
  let schedule_time := now + m * 60 * 1000000 in
  (MINYEAR_us <= schedule_time <= MAXYEAR_us →
   post text now q =
   (PostScheduled schedule_time,
    q ++ [PostItem (strip a) (strip b) (strip c) (strftime schedule_time)])) ∧
  (¬ (MINYEAR_us <= schedule_time <= MAXYEAR_us) →
   post text now q = (InvalidFormat, q)).
Proof.
  intros Hp Hf Hm Hnow schedule_time.
  assert (contains "|" text = true) as Hpipe.
  { apply (partition_rest_contains " " "|" text h payload Hp).
    apply fields_contains. rewrite Hf. cbn. lia. }
  assert (String.eqb text "" = false) as Hne.
  { destruct text; [done|]. done. }
  assert (parse_post text now =
          m' ← Some m; td ← timedelta_minutes m'; s ← datetime_add now td;
          Some (strip a, strip b, strip c, s)) as Hparse.
  { unfold parse_post. rewrite Hp, split_fields by (rewrite Hf; cbn; lia).
    rewrite Hf. cbn [map]. by rewrite Hm. }
  cbn [mbind option_bind] in Hparse.
  unfold post. rewrite Hne, Hpipe. cbn [orb negb]. rewrite Hparse.
  unfold MINYEAR_us, MAXYEAR_us in *.
  unfold timedelta_minutes, datetime_add, MINYEAR_us, MAXYEAR_us.
  subst schedule_time. split; intros Hr.
  - assert (-999999999 <= m / 1440 <= 999999999) as Hdays.
    { split.
      - apply Z.div_le_lower_bound; lia.
      - apply Z.div_le_upper_bound; lia. }
    destruct (Z.leb_spec (-999999999) (m / 1440)); [|lia].
    destruct (Z.leb_spec (m / 1440) 999999999); [|lia]. cbn [andb mbind option_bind].
    destruct (Z.leb_spec 0 (now + m * 60 * 1000000)); [|lia].
    destruct (Z.leb_spec (now + m * 60 * 1000000) (3652059 * 86400 * 1000000 - 1)); [|lia].
    done.
  - destruct (_ && _); [|done]. cbn [mbind option_bind].
    destruct (Z.leb_spec 0 (now + m * 60 * 1000000));
      destruct (Z.leb_spec (now + m * 60 * 1000000) (3652059 * 86400 * 1000000 - 1));
      try done.
    lia.
Qed.

Lemma post_accepts_in_range_witness :
  post "/post Title| Body |http://x|10" t0 [item_T] =
  (PostScheduled (t0 + 10 * 60 * 1000000),
   [item_T] ++ [PostItem (strip "Title") (strip " Body ") (strip "http://x")
                  (strftime (t0 + 10 * 60 * 1000000))]) ∧
  post "/post Title| Body |http://x|-9999999999" t0 [item_T] = (InvalidFormat, [item_T]).
Proof.
  split.
  - apply (post_accepts_in_range "/post Title| Body |http://x|10" "/post"
             "Title| Body |http://x|10" "Title" " Body " "http://x" "10" 10 t0 [item_T]);
      [reflexivity|reflexivity|reflexivity|vm_compute; split; discriminate|
       vm_compute; split; discriminate].
  - apply (post_accepts_in_range "/post Title| Body |http://x|-9999999999" "/post"
             "Title| Body |http://x|-9999999999" "Title" " Body " "http://x"
             "-9999999999" (-9999999999) t0 [item_T]);
      [reflexivity|reflexivity|reflexivity|vm_compute; split; discriminate|].
    vm_compute. intros [H _]. by apply H.
Defined.

Lemma post_cases (text : string) (now : datetime) (q : list post_item) :
  (post text now q = (InvalidFormat, q)) ∨
  (∃ s x, post text now q = (PostScheduled s, q ++ [x]) ∧
          time x = strftime s ∧ time x * 1000000 <= s ∧
          ∀ t, strptime (time x) = Some t → t <= s).
Proof.
  destruct (post text now q) as [[|s] q'] eqn:Hpost.
  - left. f_equal. pose proof (post_appends text now q) as Ha. rewrite Hpost in Ha.
    cbn [snd] in Ha. rewrite Ha. unfold post in Hpost |- *.
    destruct (_ || _); [by rewrite app_nil_r|].
    destruct (parse_post text now) as [[[[? ?] ?] ?]|]; [done|by rewrite app_nil_r].
  - right. destruct (post_scheduled text now s q q' Hpost) as (ti & me & li & d & -> & _).
    eexists s, _. split; [done|]. cbn [time]. split; [done|].
    assert (strftime s * 1000000 <= s) as Hcut.
    { unfold strftime. pose proof (Z.div_mod s 1000000 ltac:(lia)).
      pose proof (Z.mod_pos_bound s 1000000 ltac:(lia)). lia. }
    split; [done|]. intros t. unfold strptime. destruct (_ <? _); [done|].
    by intros [= <-].
Qed.

(** X4: whatever the text, a /post keeps every queued item in its place; it
    either answers "Invalid format" and adds nothing, or answers "Post
    scheduled" and adds exactly one item at the end, with the announced time
    cut to its second: the second stored, and what [strptime] reads back
    from it when it reads it, are not later than the announced time. *)
Theorem post_only_appends (text : string) (now : datetime) (q : list post_item) :
  (post text now q = (InvalidFormat, q)) ∨
  (∃ s x, post text now q = (PostScheduled s, q ++ [x]) ∧
          time x = strftime s ∧ time x * 1000000 <= s ∧
          ∀ t, strptime (time x) = Some t → t <= s).
Proof. exact (post_cases text now q). Qed.

(** *** [strip] *)

Lemma rstrip_rstrip (space : ascii → bool) (s : string) :
  rstrip space (rstrip space s) = rstrip space s.
Proof.
  induction s as [|c s IH]; [done|]. cbn [rstrip].
  destruct (rstrip space s) as [|a r] eqn:Hr.
  - destruct (space c) eqn:Hc; [done|]. cbn [rstrip]. by rewrite Hc.
  - cbn [rstrip]. cbn [rstrip] in IH. by rewrite IH.
Qed.

Lemma lstrip_head (space : ascii → bool) (s : string) :
  match lstrip space s with
  | EmptyString => True
  | String c _ => space c = false
  end.
Proof.
  induction s as [|c s IH]; [done|]. cbn [lstrip].
  destruct (space c) eqn:Hc; [done|]. exact Hc.
Qed.

Lemma lstrip_rstrip_lstrip (space : ascii → bool) (s : string) :
  lstrip space (rstrip space (lstrip space s)) = rstrip space (lstrip space s).
Proof.
  pose proof (lstrip_head space s) as Hh.
  destruct (lstrip space s) as [|c t]; [done|]. cbn [rstrip].
  destruct (rstrip space t); rewrite ?Hh; cbn [lstrip]; by rewrite Hh.
Qed.

Lemma strip_strip (s : string) : strip (strip s) = strip s.
Proof. unfold strip. by rewrite lstrip_rstrip_lstrip, rstrip_rstrip. Qed.

(** X5: the title, message and link of every item a /post appends are
    stripped: none starts or ends with white space, so stripping them again
    changes nothing. *)
Theorem posted_fields_are_stripped (text : string) (now s : datetime)
    (q : list post_item) (x : post_item) :
  post text now q = (PostScheduled s, q ++ [x]) →
  strip (title x) = title x ∧ strip (message x) = message x ∧ strip (link x) = link x.
Proof.
  unfold post. destruct (_ || _); [done|].
  destruct (parse_post text now) as [[[[ti me] li] s']|] eqn:Hp; [|done].
  intros [= _ Hx%app_inv_head]. injection Hx as <-. cbn [title message link].
  unfold parse_post in Hp.
  destruct (partition " " text) as [? [payload|]]; [|done].
  destruct (split "|" 3 payload) as [|a [|b [|c [|d [|]]]]]; try done.
  cbn [map] in Hp. destruct (int (strip d)); [|done]. cbn [mbind option_bind] in Hp.
  destruct (timedelta_minutes _); [|done]. cbn [mbind option_bind] in Hp.
  destruct (datetime_add _ _); [|done]. cbn [mbind option_bind] in Hp.
  injection Hp as <- <- <- _. by rewrite !strip_strip.
Qed.

Lemma posted_fields_are_stripped_witness :
  strip (title (PostItem "Title" "Body" "http://x" 63839664600)) = "Title" ∧
  strip (message (PostItem "Title" "Body" "http://x" 63839664600)) = "Body" ∧
  strip (link (PostItem "Title" "Body" "http://x" 63839664600)) = "http://x".
Proof.
  apply (posted_fields_are_stripped "/post  Title | Body	| http://x |10" t0
           (t0 + 10 * 60 * 1000000) [item_T]
           (PostItem "Title" "Body" "http://x" 63839664600)).
  reflexivity.
Defined.

(** ** /post and /queue together *)

(** X6: the /queue listing numbers the items from 1 in queue order, and
    right after an accepted /post it is the listing from before (if any)
    followed by one more line, numbered with the new length of the queue and
    showing the new item's title and time. *)
Theorem queue_lists_posted_item (text : string) (now : datetime) (q : list post_item) :
  fst (post text now q) ≠ InvalidFormat →
  (∃ x, snd (post text now q) = q ++ [x] ∧
        fst (queue (snd (post text now q))) =
        ScheduledPosts
          (match fst (queue q) with QueueEmpty => [] | ScheduledPosts lines => lines end
           ++ [(S (length q), title x, time x)])) ∧
  ∀ i y, snd (post text now q) !! i = Some y →
         ∃ lines, fst (queue (snd (post text now q))) = ScheduledPosts lines ∧
                  lines !! i = Some (S i, title y, time y).
Proof.
  intros Hok. split.
  - destruct (post_cases text now q) as [Hinv|(s & x & Hpost & _)].
    { by rewrite Hinv in Hok. }
    rewrite Hpost. cbn [snd]. exists x. split; [done|].
    unfold queue. destruct q as [|y q]; [done|]. cbn [app fst].
    change (y :: q ++ [x]) with ((y :: q) ++ [x]). rewrite imap_app. cbn [imap].
    by rewrite Nat.add_0_r.
  - intros i y Hi. destruct (snd (post text now q)) as [|z q']; [done|].
    eexists. split; [done|]. rewrite list_lookup_imap, Hi. done.
Qed.

Lemma queue_lists_posted_item_witness :
  (∃ x, snd (post "/post U|B|http://y|0" (t0 + 1000000) [item_T]) = [item_T] ++ [x] ∧
        fst (queue (snd (post "/post U|B|http://y|0" (t0 + 1000000) [item_T]))) =
        ScheduledPosts
          (match fst (queue [item_T]) with
           | QueueEmpty => []
           | ScheduledPosts lines => lines
           end ++ [(S (length [item_T]), title x, time x)])) ∧
  ∀ i y, snd (post "/post U|B|http://y|0" (t0 + 1000000) [item_T]) !! i = Some y →
         ∃ lines,
           fst (queue (snd (post "/post U|B|http://y|0" (t0 + 1000000) [item_T]))) =
           ScheduledPosts lines ∧
           lines !! i = Some (S i, title y, time y).
Proof.
  apply (queue_lists_posted_item "/post U|B|http://y|0" (t0 + 1000000) [item_T]).
  discriminate.
Defined.

(** ** The dispatch tick, further *)

Lemma readable_forallb (l : list post_item) :
  forallb readable l = true → Forall (λ y, readable y = true) l.
Proof.
  rewrite forallb_forall, Forall_forall. intros H y Hy. by apply H, list_elem_of_In.
Qed.

(** X7: a tick whose [send_photo] calls each return before anything else
    happens, from any state whose queued times all read back: it sends the
    due items of the queue in queue order, removes exactly those, leaves the
    others in their order, and finishes. *)
Theorem tick_partitions_queue (b : bot) (now : datetime) :
  Forall (λ y, readable y = true) (post_queue b) →
  let i := length (jobs b) in
  let due := filter (λ y, is_due now y = true) (post_queue b) in
  let b' := run b (Tick now :: repeat (Sent i true) (length due)) in
  jobs b' = jobs b ++ [Finished] ∧
  post_queue b' = filter (λ y, is_due now y = false) (post_queue b) ∧
  sent b' = sent b ++ map (λ y, (i, now, y)) due ∧
  removed b' = removed b ++ map (λ y, (i, y)) due.
Proof. exact (tick_drains b now). Qed.

Lemma tick_partitions_queue_witness :
  let b := run init [post_T; Post "/post V|B|http://z|1" t0; post_U] in
  let now := t0 + 10000000 in
  let i := length (jobs b) in
  let due := filter (λ y, is_due now y = true) (post_queue b) in
  let b' := run b (Tick now :: repeat (Sent i true) (length due)) in
  jobs b' = jobs b ++ [Finished] ∧
  post_queue b' = filter (λ y, is_due now y = false) (post_queue b) ∧
  sent b' = sent b ++ map (λ y, (i, now, y)) due ∧
  removed b' = removed b ++ map (λ y, (i, y)) due.
Proof.
  intros b now. apply (tick_partitions_queue b now).
  apply readable_forallb. vm_compute. reflexivity.
Defined.

(** X8: two such ticks one after the other, the second not earlier than the
    first, on a queue whose times all read back: the second sends only items
    that were not due for the first, so nothing is sent twice, and the queue
    is left with the items not yet due at the second. *)
Theorem ticks_in_a_row (b : bot) (now now' : datetime) :
  now <= now' →
  Forall (λ y, readable y = true) (post_queue b) →
  let i := length (jobs b) in
  let q := post_queue b in
  let b1 := run b (Tick now ::
                   repeat (Sent i true) (length (filter (λ y, is_due now y = true) q))) in
  let b2 := run b1 (Tick now' ::
                    repeat (Sent (S i) true)
                      (length (filter (λ y, is_due now' y = true) (post_queue b1)))) in
  sent b2 =
  sent b ++ map (λ y, (i, now, y)) (filter (λ y, is_due now y = true) q)
         ++ map (λ y, (S i, now', y))
              (filter (λ y, is_due now' y = true ∧ is_due now y = false) q) ∧
  post_queue b2 = filter (λ y, is_due now' y = false) q.
Proof.
  intros Hle Hr i q b1 b2.
  destruct (tick_drains b now Hr) as (Hj1 & Hq1 & Hs1 & _). fold i q b1 in Hj1, Hq1, Hs1.
  assert (Forall (λ y, readable y = true) (post_queue b1)) as Hr1.
  { rewrite Hq1. apply Forall_forall. intros y [_ Hy]%list_elem_of_filter.
    rewrite Forall_forall in Hr. by apply Hr. }
  destruct (tick_drains b1 now' Hr1) as (_ & Hq2 & Hs2 & _).
  rewrite Hj1, length_app in Hq2, Hs2. cbn [length] in Hq2, Hs2.
  rewrite Nat.add_1_r in Hq2, Hs2. fold i b2 in Hq2, Hs2.
  split.
  - rewrite Hs2, Hs1, Hq1, list_filter_filter. by rewrite <- app_assoc.
  - rewrite Hq2, Hq1, list_filter_filter. apply list_filter_iff.
    intros y. split; [by intros [? _]|]. intros H. split; [done|].
    destruct (is_due now y) eqn:Hd; [|done].
    by rewrite (is_due_later now now' y Hle Hd) in H.
Qed.

Lemma ticks_in_a_row_witness :
  let b := run init [post_T; Post "/post V|B|http://z|1" t0] in
  let now := t0 + 10000000 in
  let now' := t0 + 70000000 in
  let i := length (jobs b) in
  let q := post_queue b in
  let b1 := run b (Tick now ::
                   repeat (Sent i true) (length (filter (λ y, is_due now y = true) q))) in
  let b2 := run b1 (Tick now' ::
                    repeat (Sent (S i) true)
                      (length (filter (λ y, is_due now' y = true) (post_queue b1)))) in
  sent b2 =
  sent b ++ map (λ y, (i, now, y)) (filter (λ y, is_due now y = true) q)
         ++ map (λ y, (S i, now', y))
              (filter (λ y, is_due now' y = true ∧ is_due now y = false) q) ∧
  post_queue b2 = filter (λ y, is_due now' y = false) q.
Proof.
  apply (ticks_in_a_row (run init [post_T; Post "/post V|B|http://z|1" t0])
           (t0 + 10000000) (t0 + 70000000)).
  - vm_compute. discriminate.
  - apply readable_forallb. vm_compute. reflexivity.
Defined.

(** X20: a /post with a negative offset can store a date before the year
    1000, whose text [strptime] does not read back.  A tick on a queue with
    such an item, its [send_photo] calls each returning before anything else
    happens, handles the items in front of the first such item as usual,
    then raises ValueError there: that item and every item behind it stay
    in the queue unsent, due or not. *)
Theorem unreadable_item_stops_tick (b : bot) (now : datetime)
    (good behind : list post_item) (bad : post_item) :
  post_queue b = good ++ bad :: behind →
  Forall (λ y, readable y = true) good →
  readable bad = false →
  let i := length (jobs b) in
  let due := filter (λ y, is_due now y = true) good in
  let b' := run b (Tick now :: repeat (Sent i true) (length due)) in
  jobs b' = jobs b ++ [Raised ValueError] ∧
  post_queue b' = filter (λ y, is_due now y = false) good ++ bad :: behind ∧
  sent b' = sent b ++ map (λ y, (i, now, y)) due ∧
  removed b' = removed b ++ map (λ y, (i, y)) due.
Proof. exact (tick_raises b now good behind bad). Qed.

Lemma unreadable_item_stops_tick_witness :
  let b := run init [post_T; Post "/post Old|B|http://o|-540000000" t0; post_U] in
  let bad := PostItem "Old" "B" "http://o" 31439664000 in
  let now := t0 + 10000000 in
  let b' := run b [Tick now; Sent 0 true] in
  post_queue b = [item_T; bad; item_U] ∧
  is_due now item_U = true ∧
  jobs b' = [Raised ValueError] ∧
  post_queue b' = [bad; item_U] ∧
  sent b' = [(0%nat, now, item_T)] ∧
  removed b' = [(0%nat, item_T)].
Proof.
  split; [reflexivity|]. split; [reflexivity|].
  exact (unreadable_item_stops_tick
           (run init [post_T; Post "/post Old|B|http://o|-540000000" t0; post_U])
           (t0 + 10000000) [item_T] [item_U] (PostItem "Old" "B" "http://o" 31439664000)
           eq_refl (readable_forallb [item_T] eq_refl) eq_refl).
Defined.

(** *** In any schedule *)

Lemma remove_sublist (x : post_item) (l l' : list post_item) :
  remove x l = Some l' → l' `sublist_of` l.
Proof.
  revert l'. induction l as [|y l IH]; intros l'; [done|]. cbn [remove].
  destruct (decide (y = x)) as [->|Hne].
  - intros [= ->]. by apply sublist_cons.
  - destruct (remove x l) as [l0|]; [|done]. intros [= <-].
    apply sublist_skip. by apply IH.
Qed.

Lemma step_queue_sublist (b : bot) (e : event) :
  post_queue (step b e) `sublist_of` post_queue b ++ posted [e].
Proof.
  destruct e as [text now| |now|i ok].
  - cbn [step post_queue posted flat_map]. by rewrite post_appends, app_nil_r.
  - rewrite step_queue. cbn. by rewrite app_nil_r.
  - cbn. by rewrite app_nil_r.
  - cbn [step posted flat_map]. rewrite app_nil_r.
    destruct (jobs b !! i) as [[now x rest| |]|]; try done.
    unfold resume. destruct ok; [|done].
    destruct (remove x (post_queue b)) as [q|] eqn:Hq; [|done].
    cbn [post_queue]. by apply (remove_sublist x).
Qed.

(** X9: in any schedule, overlapping runs and failed sends included, the
    queue is a subsequence of the items posted, in the order they were
    posted: nothing is ever put back, added from elsewhere or reordered. *)
Theorem queue_keeps_posting_order (events : list event) :
  post_queue (run init events) `sublist_of` posted events.
Proof.
  enough (∀ b, post_queue (run b events) `sublist_of` post_queue b ++ posted events) as H
    by apply (H init).
  induction events as [|e events IH]; intros b.
  - cbn. by rewrite app_nil_r.
  - rewrite run_cons. etrans; [apply IH|].
    change (e :: events) with ([e] ++ events). rewrite posted_app, app_assoc.
    apply sublist_app; [apply step_queue_sublist|done].
Qed.

(** X10: in any schedule, what has been removed from the queue and what is
    still in it are together exactly the items posted, each as many times as
    it was posted: no item is lost and none is removed twice. *)
Theorem removed_and_queued_are_posted (events : list event) :
  map snd (removed (run init events)) ++ post_queue (run init events) ≡ₚ posted events.
Proof. exact (run_removed events init). Qed.

Lemma loop_snapshot (now now' : datetime) (l rest : list post_item) (x : post_item) :
  loop now l = Awaiting now' x rest → ∀ y, y ∈ x :: rest → y ∈ l.
Proof.
  intros (_ & _ & skipped & -> & _)%loop_awaiting y Hy.
  apply elem_of_app. by right.
Qed.

Lemma step_known (P : list post_item) (b : bot) (e : event) :
  known P b → known (P ++ posted [e]) (step b e).
Proof.
  intros (Hq & Hj & Hs).
  assert (∀ y, y ∈ P → y ∈ P ++ posted [e]) as Hin by (intros; apply elem_of_app; by left).
  destruct e as [text now| |now|i ok].
  - (* /post *)
    split; [|split]; cbn [step post_queue jobs sent]; [|by eauto..].
    intros x. rewrite post_appends. cbn [posted flat_map]. rewrite app_nil_r.
    intros [Hx|Hx]%elem_of_app; apply elem_of_app; [left; by apply Hq|by right].
  - rewrite step_queue. split; [|split]; by eauto.
  - (* a run starts *)
    split; [|split]; cbn [step post_queue jobs sent]; [by eauto| |].
    + intros i now' x rest Hi y Hy. apply lookup_app_Some in Hi as [Hi|[_ Hi]].
      * by eapply Hin, Hj.
      * destruct (i - length (jobs b))%nat; [|done]. cbn in Hi. injection Hi as Hi.
        apply Hin, Hq. by eapply loop_snapshot.
    + intros c [Hc|Hc]%elem_of_app; [by apply Hin, Hs|].
      unfold auto_post_loop in Hc.
      destruct (loop now (post_queue b)) as [now' x rest| |] eqn:Hl; cbn in Hc;
        [|by apply elem_of_nil in Hc..].
      apply list_elem_of_singleton in Hc as ->. cbn [snd].
      apply Hin, Hq. eapply loop_snapshot; [done|]. by left.
  - (* a send_photo returns or raises *)
    cbn [step]. destruct (jobs b !! i) as [[now x rest| |]|] eqn:Hi;
      [|split; [|split]; by eauto..].
    assert (∀ y, y ∈ x :: rest → y ∈ P) as Hrest by (by eapply Hj).
    assert (∀ j, (∀ now' x' rest', j = Awaiting now' x' rest' →
                                   ∀ y, y ∈ x' :: rest' → y ∈ P) →
                 ∀ q, (∀ y, y ∈ q → y ∈ P) →
                      ∀ rm, known (P ++ posted [Sent i ok])
                              (Bot q (<[i := j]> (jobs b)) (sent b ++ call i j) rm)) as Hgen.
    { intros j Hjob q Hq' rm. split; [|split]; cbn [post_queue jobs sent].
      - by eauto.
      - intros i' now' x' rest' [(_ & Hj' & _)|[_ Hi']]%list_lookup_insert_Some y Hy.
        + by eapply Hin, Hjob.
        + by eapply Hin, Hj.
      - intros c [Hc|Hc]%elem_of_app; [by apply Hin, Hs|].
        destruct j as [now' x' rest'| |]; cbn in Hc; [|by apply elem_of_nil in Hc..].
        apply list_elem_of_singleton in Hc as ->. cbn [snd].
        eapply Hin, Hjob; [done|]. by left. }
    unfold resume. destruct ok; [destruct (remove x (post_queue b)) as [q|] eqn:Hrm|].
    + apply Hgen.
      * intros now' x' rest' Hl y Hy. apply Hrest. right.
        by eapply loop_snapshot.
      * intros y Hy. apply Hq. apply remove_sublist in Hrm.
        by apply (sublist_subseteq _ _ Hrm).
    + by apply Hgen.
    + by apply Hgen.
Qed.

Lemma run_known (events : list event) (P : list post_item) (b : bot) :
  known P b → known (P ++ posted events) (run b events).
Proof.
  revert P b. induction events as [|e events IH]; intros P b Hk.
  - cbn. by rewrite app_nil_r.
  - rewrite run_cons. change (e :: events) with ([e] ++ events).
    rewrite posted_app, app_assoc. by apply IH, step_known.
Qed.

(** X11: in any schedule, every item a run of [auto_post_loop] calls
    [send_photo] with was posted by a /post command of that schedule and was
    due at the [now] of that run. *)
Theorem sent_items_were_posted_and_due (events : list event)
    (i : nat) (now : datetime) (x : post_item) :
  (i, now, x) ∈ sent (run init events) →
  x ∈ posted events ∧ is_due now x = true.
Proof.
  intros Hin. split.
  - assert (known [] init) as Hk.
    { split; [|split]; cbn; intros; by (try apply elem_of_nil in H). }
    destruct (run_known events [] init Hk) as (_ & _ & Hs). exact (Hs _ Hin).
  - pose proof (run_sent_due events init ltac:(constructor)) as Hall.
    rewrite Forall_forall in Hall. exact (Hall _ Hin).
Qed.

Lemma sent_items_were_posted_and_due_witness :
  item_T ∈ posted [post_T; post_U; Tick (t0 + 10000000)] ∧
  is_due (t0 + 10000000) item_T = true.
Proof.
  apply (sent_items_were_posted_and_due [post_T; post_U; Tick (t0 + 10000000)] 0).
  vm_compute. by left.
Defined.

(** *** [post_queue.remove] after the send *)

Lemma remove_first (x : post_item) (l : list post_item) :
  x ∈ l → ∃ l1 l2, l = l1 ++ x :: l2 ∧ (x ∉ l1) ∧ remove x l = Some (l1 ++ l2).
Proof.
  induction l as [|y l IH]; intros Hx; [by apply elem_of_nil in Hx|].
  cbn [remove]. destruct (decide (y = x)) as [->|Hne].
  - exists [], l. split; [done|]. split; [apply not_elem_of_nil|done].
  - apply elem_of_cons in Hx as [->|Hx]; [done|].
    destruct (IH Hx) as (l1 & l2 & -> & Hl1 & ->).
    exists (y :: l1), l2. split; [done|]. split; [|done].
    apply not_elem_of_cons. split; [congruence|done].
Qed.

Lemma remove_absent (x : post_item) (l : list post_item) :
  x ∉ l → remove x l = None.
Proof.
  induction l as [|y l IH]; intros Hx; [done|].
  apply not_elem_of_cons in Hx as [Hne Hx]. cbn [remove].
  rewrite decide_False by congruence. by rewrite IH.
Qed.

(** X12: when the [send_photo] of a run returns, the run takes the first
    queued item equal to the one it sent out of the queue, leaving the rest
    in order, and goes on with its snapshot; if no equal item is queued any
    more, [post_queue.remove] raises ValueError: the run ends, and the queue
    and the logs stay as they were. *)
Theorem remove_after_send (b : bot) (i : nat) (now : datetime)
    (x : post_item) (rest : list post_item) :
  jobs b !! i = Some (Awaiting now x rest) →
  let b' := step b (Sent i true) in
  (x ∈ post_queue b →
   ∃ l1 l2, post_queue b = l1 ++ x :: l2 ∧ (x ∉ l1) ∧ post_queue b' = l1 ++ l2 ∧
            jobs b' !! i = Some (loop now rest) ∧ removed b' = removed b ++ [(i, x)]) ∧
  (x ∉ post_queue b →
   jobs b' !! i = Some (Raised ValueError) ∧ post_queue b' = post_queue b ∧
   sent b' = sent b ∧ removed b' = removed b).
Proof.
  intros Hi b'. pose proof (lookup_lt_Some _ _ _ Hi) as Hlt.
  unfold b'. cbn [step]. rewrite Hi. unfold resume. split; intros Hx.
  - destruct (remove_first x _ Hx) as (l1 & l2 & Hq & Hl1 & Hrm). rewrite Hrm.
    exists l1, l2. cbn [post_queue jobs removed].
    split; [done|]. split; [done|]. split; [done|].
    split; [by apply list_lookup_insert_eq|done].
  - rewrite (remove_absent x _ Hx). cbn [post_queue jobs sent removed call].
    split; [by apply list_lookup_insert_eq|]. split; [done|]. split; [|done].
    by rewrite app_nil_r.
Qed.

Lemma remove_after_send_witness :
  let b := run init [post_T; post_U; Tick (t0 + 10000000)] in
  let b' := step b (Sent 0 true) in
  (item_T ∈ post_queue b →
   ∃ l1 l2, post_queue b = l1 ++ item_T :: l2 ∧ (item_T ∉ l1) ∧ post_queue b' = l1 ++ l2 ∧
            jobs b' !! 0%nat = Some (loop (t0 + 10000000) [item_U]) ∧
            removed b' = removed b ++ [(0%nat, item_T)]) ∧
  (item_T ∉ post_queue b →
   jobs b' !! 0%nat = Some (Raised ValueError) ∧ post_queue b' = post_queue b ∧
   sent b' = sent b ∧ removed b' = removed b).
Proof.
  apply (remove_after_send (run init [post_T; post_U; Tick (t0 + 10000000)]) 0
           (t0 + 10000000) item_T [item_U]).
  reflexivity.
Defined.

(** ** The voice client, further *)

(** Scanning the status queries from the first: either the first [k] all
    answer with a status other than "done" and in time, or the loop ends at
    some query before the [k]-th. *)
Lemma poll_scan (r : remote) (clip_id timeout_seconds start : Z) (k : nat) :
  (∀ i, (i < k)%nat → pending r clip_id i ∧ in_time r timeout_seconds start i) ∨
  ∃ n o, (n < k)%nat ∧
         (∀ i, (i < n)%nat → pending r clip_id i ∧ in_time r timeout_seconds start i) ∧
         ∀ fuel, ∃ t, poll r clip_id timeout_seconds start (S fuel) n = (Some o, t) ∧
                      polls t = 1%nat.
Proof.
  induction k as [|k [Hall|(n & o & Hn & Hbefore & Hstop)]].
  - left. intros i Hi. lia.
  - destruct (clip_get r clip_id k) as [|status download_url] eqn:Hget.
    { right. exists k, RequestException. split; [lia|]. split; [done|].
      intros fuel. exists [RequestsGet]. cbn [poll]. by rewrite Hget. }
    destruct (decide (status = Some "done")) as [->|Hs].
    { right. exists k, (Return download_url). split; [lia|]. split; [done|].
      intros fuel. exists [RequestsGet]. by rewrite (poll_done _ _ _ _ _ _ download_url). }
    assert (pending r clip_id k) as Hp by (by exists status, download_url).
    destruct (Z.le_gt_cases (time_time r (S k) - start) (1000 * timeout_seconds)) as [Hle|Hgt].
    + left. intros i Hi. destruct (decide (i = k)) as [->|]; [done|]. apply Hall. lia.
    + right. exists k, TimeoutError. split; [lia|]. split; [done|].
      intros fuel. exists [RequestsGet; TimeTime].
      rewrite poll_late; [done|done|]. unfold in_time. lia.
  - right. exists n, o. split; [lia|done].
Qed.

(** X13: whatever the remote answers, when each sleep lasts at least its
    two seconds and the clock does not run backwards, the call ends, by a
    result, the timeout error or a failed request, after at most
    timeout/2 + 2 status queries. *)
Theorem generate_voice_ends (r : remote) (text : string) (timeout_seconds : Z)
    (fuel : nat) :
  0 <= timeout_seconds →
  time_time r 0 <= time_time r 1 →
  (∀ k, time_time r (S k) + 2000 <= time_time r (S (S k))) →
  (Z.to_nat (timeout_seconds / 2) + 2 <= fuel)%nat →
  ∃ o t, generate_voice r text timeout_seconds fuel = (Some o, t) ∧
         (polls t <= Z.to_nat (timeout_seconds / 2) + 2)%nat.
Proof.
  intros HT H0 Hsleep Hfuel.
  destruct (clips_post r text) as [clip_id|] eqn:Hpost.
  2:{ exists RequestException, [RequestsPost]. unfold generate_voice. rewrite Hpost.
      split; [done|]. change (polls [RequestsPost]) with 0%nat. lia. }
  set (m := (Z.to_nat (timeout_seconds / 2) + 1)%nat).
  assert (¬ in_time r timeout_seconds (time_time r 0) m) as Hm.
  { unfold in_time. pose proof (clock_advances r m H0 Hsleep).
    assert (timeout_seconds < 2 * Z.of_nat m); [|lia].
    unfold m. rewrite Nat2Z.inj_add, Z2Nat.id by (apply Z.div_pos; lia).
    pose proof (Z.mod_pos_bound timeout_seconds 2 ltac:(lia)).
    pose proof (Z.div_mod timeout_seconds 2 ltac:(lia)). lia. }
  destruct (poll_scan r clip_id timeout_seconds (time_time r 0) (S m))
    as [Hall|(n & o & Hn & Hbefore & Hstop)].
  { destruct (Hall m) as [_ ?]; [lia|done]. }
  destruct (Hstop (fuel - n - 1)%nat) as (t & Ht & Hpolls).
  exists o, (RequestsPost :: TimeTime :: rounds n ++ t). split.
  - rewrite (generate_voice_poll r text clip_id) by done.
    replace fuel with (n + S (fuel - n - 1))%nat by (unfold m in Hn; lia).
    rewrite poll_rounds by (intros i Hi; apply Hbefore; lia).
    cbn [Nat.add]. by rewrite Ht.
  - rewrite polls_generate_voice, polls_rounds, Hpolls. unfold m in Hn. lia.
Qed.

Lemma generate_voice_ends_witness :
  ∃ o t, generate_voice slow_remote "hello" 30 17 = (Some o, t) ∧
         (polls t <= Z.to_nat (30 / 2) + 2)%nat.
Proof.
  apply (generate_voice_ends slow_remote "hello" 30 17).
  - lia.
  - cbn. lia.
  - intros k. cbn. lia.
  - change (Z.to_nat (30 / 2)) with 15%nat. lia.
Defined.

Lemma sleeps_rounds (n : nat) (t : list io) : sleeps (rounds n ++ t) = (n + sleeps t)%nat.
Proof.
  unfold sleeps. induction n as [|n IH]; [done|].
  cbn [rounds app]. rewrite filter_cons_False by done.
  rewrite filter_cons_False by done. rewrite filter_cons_True by done.
  cbn [length]. by rewrite IH.
Qed.

(** What a run of the loop that ends says about the remote: the queries
    before the last answered with another status than "done" and in time,
    and the last one decided the outcome. *)
Lemma poll_ends (r : remote) (clip_id timeout_seconds start : Z) (fuel : nat) :
  ∀ (k : nat) (o : outcome) (t : list io),
  poll r clip_id timeout_seconds start fuel k = (Some o, t) →
  ∃ n, t = rounds n ++ match o with TimeoutError => [RequestsGet; TimeTime]
                                  | _ => [RequestsGet] end ∧
       (∀ i, (k <= i < k + n)%nat →
             pending r clip_id i ∧ in_time r timeout_seconds start i) ∧
       match o with
       | Return download_url =>
           clip_get r clip_id (k + n) = Json (Some "done") download_url
       | TimeoutError =>
           pending r clip_id (k + n) ∧ ¬ in_time r timeout_seconds start (k + n)
       | RequestException => clip_get r clip_id (k + n) = HTTPError
       end.
Proof.
  induction fuel as [|fuel IH]; intros k o t; [done|]. cbn [poll].
  destruct (clip_get r clip_id k) as [|status download_url] eqn:Hget.
  { intros [= <- <-]. exists 0%nat. rewrite Nat.add_0_r.
    split; [done|]. split; [intros i Hi; lia|done]. }
  destruct (decide (status = Some "done")) as [->|Hs].
  { rewrite bool_decide_eq_true_2 by done. intros [= <- <-]. exists 0%nat.
    rewrite Nat.add_0_r. split; [done|]. split; [intros i Hi; lia|done]. }
  rewrite bool_decide_eq_false_2 by done.
  assert (pending r clip_id k) as Hp by (by exists status, download_url).
  destruct (Z.gtb_spec (time_time r (S k) - start) (1000 * timeout_seconds)) as [Hgt|Hle].
  { intros [= <- <-]. exists 0%nat. rewrite Nat.add_0_r.
    split; [done|]. split; [intros i Hi; lia|]. split; [done|]. unfold in_time. lia. }
  destruct (poll r clip_id timeout_seconds start fuel (S k)) as [o' t'] eqn:Hpoll.
  intros [= -> <-]. destruct (IH (S k) o t' Hpoll) as (n & -> & Hbefore & Hlast).
  exists (S n). replace (k + S n)%nat with (S k + n)%nat by lia.
  split; [done|]. split; [|done].
  intros i Hi. destruct (decide (i = k)) as [->|]; [done|]. apply Hbefore. lia.
Qed.

(** X14: the outcome of a call that ends after a successful POST is decided
    by its last status query alone.  It returns only the download_url of an
    answer that said "done"; it raises the timeout error only after an
    answer with another status, with the clock past the timeout; and every
    query before the last answered with another status, in time. *)
Theorem generate_voice_outcome (r : remote) (text : string)
    (clip_id timeout_seconds : Z) (fuel : nat) (o : outcome) (t : list io) :
  clips_post r text = Some clip_id →
  generate_voice r text timeout_seconds fuel = (Some o, t) →
  (1 <= polls t)%nat ∧
  (∀ i, (i < polls t - 1)%nat →
        pending r clip_id i ∧ in_time r timeout_seconds (time_time r 0) i) ∧
  match o with
  | Return download_url =>
      clip_get r clip_id (polls t - 1) = Json (Some "done") download_url
  | TimeoutError =>
      pending r clip_id (polls t - 1) ∧
      1000 * timeout_seconds < time_time r (polls t) - time_time r 0
  | RequestException => clip_get r clip_id (polls t - 1) = HTTPError
  end.
Proof.
  intros Hpost. rewrite (generate_voice_poll r text clip_id) by done.
  destruct (poll r clip_id timeout_seconds (time_time r 0) fuel 0) as [o' t'] eqn:Hpoll.
  cbn [fst snd]. intros [= -> <-].
  destruct (poll_ends _ _ _ _ _ _ _ _ Hpoll) as (n & -> & Hbefore & Hlast).
  assert (polls (RequestsPost :: TimeTime :: rounds n ++
                 match o with TimeoutError => [RequestsGet; TimeTime]
                            | _ => [RequestsGet] end) = S n) as ->.
  { rewrite polls_generate_voice, polls_rounds.
    assert (polls match o with TimeoutError => [RequestsGet; TimeTime]
                             | _ => [RequestsGet] end = 1%nat) as -> by (by destruct o).
    lia. }
  replace (S n - 1)%nat with n by lia. cbn [Nat.add] in Hlast.
  split; [lia|]. split; [intros i Hi; apply Hbefore; lia|].
  destruct o; [done| |done]. destruct Hlast as [Hp Hlate]. split; [done|].
  unfold in_time in Hlate. lia.
Qed.

Lemma generate_voice_outcome_witness :
  let t := [RequestsPost; TimeTime; RequestsGet; TimeTime; TimeSleep 2;
            RequestsGet; TimeTime; TimeSleep 2; RequestsGet; TimeTime] in
  (1 <= polls t)%nat ∧
  (∀ i, (i < polls t - 1)%nat →
        pending slow_remote 42 i ∧ in_time slow_remote 30 (time_time slow_remote 0) i) ∧
  pending slow_remote 42 (polls t - 1) ∧
  1000 * 30 < time_time slow_remote (polls t) - time_time slow_remote 0.
Proof.
  apply (generate_voice_outcome slow_remote "hello" 42 30 10 TimeoutError); reflexivity.
Defined.

(** X15: a call that ends after a successful POST has slept exactly once
    between two consecutive status queries, two seconds each time, and not
    after the last query: one sleep fewer than queries. *)
Theorem generate_voice_sleeps (r : remote) (text : string)
    (clip_id timeout_seconds : Z) (fuel : nat) (o : outcome) (t : list io) :
  clips_post r text = Some clip_id →
  generate_voice r text timeout_seconds fuel = (Some o, t) →
  (S (sleeps t) = polls t)%nat ∧
  ∀ seconds, TimeSleep seconds ∈ t → seconds = 2.
Proof.
  intros Hpost. rewrite (generate_voice_poll r text clip_id) by done.
  destruct (poll r clip_id timeout_seconds (time_time r 0) fuel 0) as [o' t'] eqn:Hpoll.
  cbn [fst snd]. intros [= -> <-].
  destruct (poll_ends _ _ _ _ _ _ _ _ Hpoll) as (n & -> & _ & _). split.
  - rewrite polls_generate_voice, polls_rounds.
    change (sleeps (RequestsPost :: TimeTime :: ?l)) with (sleeps l).
    rewrite sleeps_rounds.
    assert (polls match o with TimeoutError => [RequestsGet; TimeTime]
                             | _ => [RequestsGet] end = 1%nat) as -> by (by destruct o).
    assert (sleeps match o with TimeoutError => [RequestsGet; TimeTime]
                              | _ => [RequestsGet] end = 0%nat) as -> by (by destruct o).
    lia.
  - intros seconds Hin.
    apply elem_of_cons in Hin as [?|Hin]; [done|].
    apply elem_of_cons in Hin as [?|Hin]; [done|].
    apply elem_of_app in Hin as [Hin|Hin].
    + clear -Hin. induction n as [|n IH]; [by apply elem_of_nil in Hin|].
      cbn [rounds] in Hin.
      apply elem_of_cons in Hin as [?|Hin]; [done|].
      apply elem_of_cons in Hin as [?|Hin]; [done|].
      apply elem_of_cons in Hin as [[= ->]|Hin]; [done|]. by apply IH.
    + destruct o; repeat (apply elem_of_cons in Hin as [?|Hin]; [done|]);
        by apply elem_of_nil in Hin.
Qed.

Lemma generate_voice_sleeps_witness :
  let t := [RequestsPost; TimeTime; RequestsGet; TimeTime; TimeSleep 2;
            RequestsGet; TimeTime; TimeSleep 2; RequestsGet; TimeTime] in
  (S (sleeps t) = polls t)%nat ∧ ∀ seconds, TimeSleep seconds ∈ t → seconds = 2.
Proof.
  apply (generate_voice_sleeps slow_remote "hello" 42 30 10 TimeoutError); reflexivity.
Defined.

(** ** The message handler *)

(** X16: a text message is answered through the voice client exactly when
    the last /voice_on or /voice_off command of its sender was /voice_on.
    Otherwise, and for a sender who never sent either, the handler makes the
    chat completion call and no request of the voice client, whatever the
    other users have set. *)
Theorem handle_message_follows_last_command (cs : list mode_command) (r : remote)
    (chat : string → option string) (u : Z) (text : string) (fuel : nat) :
  let trace := handle_message (fold_left handle_mode cs ∅) r chat u text fuel in
  (last_mode u cs = Some true →
   (CallChatCompletion ∉ trace) ∧
   ∃ tail, trace = map Call (snd (generate_voice r text 30 fuel)) ++ tail) ∧
  (last_mode u cs ≠ Some true →
   (∀ c, Call c ∉ trace) ∧
   trace = match chat text with
           | Some content => [CallChatCompletion; Await (ReplyText (strip content))]
           | None => [CallChatCompletion]
           end).
Proof.
  cbn zeta. unfold handle_message, voice_mode. rewrite handle_mode_last, lookup_empty.
  split.
  - intros ->. cbn [default].
    assert (∀ t, CallChatCompletion ∉ map Call t) as Hno.
    { intros t (c & Hc & _)%list_elem_of_fmap. done. }
    destruct (generate_voice r text 30 fuel) as [[[voice| |]|] t]; cbn [snd].
    + split; [|by eexists]. intros [Hin|Hin]%elem_of_app; [by apply (Hno t)|].
      apply list_elem_of_singleton in Hin. done.
    + split; [apply Hno|]. exists []. by rewrite app_nil_r.
    + split; [apply Hno|]. exists []. by rewrite app_nil_r.
    + split; [apply Hno|]. exists []. by rewrite app_nil_r.
  - intros Hlast.
    assert (default false match last_mode u cs with Some flag => Some flag | None => None end
            = false) as ->.
    { destruct (last_mode u cs) as [[|]|]; done. }
    split; [|done]. intros c Hin.
    destruct (chat text);
      repeat (apply elem_of_cons in Hin as [?|Hin]; [done|]); by apply elem_of_nil in Hin.
Qed.

Lemma handle_message_follows_last_command_witness :
  let cs := [VoiceOn 7; VoiceOn 3; VoiceOff 7] in
  let chat := λ _ : string, Some " hi " in
  let trace := handle_message (fold_left handle_mode cs ∅) exact_remote chat in
  ((CallChatCompletion ∉ trace 3 "hello" 5%nat) ∧
   ∃ tail, trace 3 "hello" 5%nat =
           map Call (snd (generate_voice exact_remote "hello" 30 5)) ++ tail) ∧
  ((∀ c, Call c ∉ trace 7 "hello" 5%nat) ∧
   trace 7 "hello" 5%nat = [CallChatCompletion; Await (ReplyText (strip " hi "))]).
Proof.
  cbn zeta. split.
  - apply (handle_message_follows_last_command [VoiceOn 7; VoiceOn 3; VoiceOff 7]
             exact_remote (λ _, Some " hi ") 3 "hello" 5). reflexivity.
  - apply (handle_message_follows_last_command [VoiceOn 7; VoiceOn 3; VoiceOff 7]
             exact_remote (λ _, Some " hi ") 7 "hello" 5). discriminate.
Defined.

(** X17: with voice mode on, the handler sends a reply exactly when
    [generate_voice] returns, and the reply is then the voice note with the
    returned download_url, absent or not; when the client raises, by timeout
    or by a failed request, the user gets no reply at all. *)
Theorem handle_message_replies_iff_returned (m : gmap Z bool) (r : remote)
    (chat : string → option string) (u : Z) (text : string) (fuel : nat) :
  voice_mode u m = true →
  let trace := handle_message m r chat u text fuel in
  (∀ a, Await a ∈ trace ↔
        ∃ voice, a = ReplyVoice voice ∧
                 fst (generate_voice r text 30 fuel) = Some (Return voice)).
Proof.
  intros Hon. cbn zeta. unfold handle_message. rewrite Hon.
  assert (∀ t a, Await a ∉ map Call t) as Hno.
  { intros t a (c & Hc & _)%list_elem_of_fmap. done. }
  destruct (generate_voice r text 30 fuel) as [[[voice| |]|] t]; cbn [fst]; intros a.
  - split.
    + intros [Hin|Hin]%elem_of_app; [by apply Hno in Hin|].
      apply list_elem_of_singleton in Hin as [= ->]. by exists voice.
    + intros (v & -> & [= ->]). apply elem_of_app. right. by left.
  - split; [by intros ?%Hno|]. by intros (v & _ & ?).
  - split; [by intros ?%Hno|]. by intros (v & _ & ?).
  - split; [by intros ?%Hno|]. by intros (v & _ & ?).
Qed.

Lemma handle_message_replies_iff_returned_witness :
  Await (ReplyVoice (Some "U")) ∈
    handle_message (voice_on 7 ∅) (quick_remote 1) (λ _, None) 7 "hello" 20 ↔
  ∃ voice, ReplyVoice (Some "U") = ReplyVoice voice ∧
           fst (generate_voice (quick_remote 1) "hello" 30 20) = Some (Return voice).
Proof.
  assert (voice_mode 7 (voice_on 7 ∅) = true) as Hon by reflexivity.
  exact (handle_message_replies_iff_returned (voice_on 7 ∅) (quick_remote 1) (λ _, None) 7
           "hello" 20 Hon (ReplyVoice (Some "U"))).
Defined.

(** ** Start-up *)

Lemma truth_Some (value : option string) :
  truth value = true ↔ ∃ s, value = Some s ∧ s ≠ "".
Proof.
  destruct value as [s|]; cbn.
  - rewrite negb_true_iff. destruct (String.eqb_spec s "") as [->|Hne].
    + split; [done|]. by intros (s & [= <-] & ?).
    + split; [|done]. intros _. by exists s.
  - split; [done|]. by intros (s & ? & _).
Qed.

(** X18: the module starts exactly when each of the six required variables
    is set to a text that is not empty, an empty value counting as a missing
    one; no other variable of the environment, set or removed, changes
    that. *)
Theorem startup_needs_every_variable (environ : gmap string string)
    (other value : string) :
  (startup environ = true ↔
   ∀ name, name ∈ required → ∃ s, environ !! name = Some s ∧ s ≠ "") ∧
  (other ∉ required →
   startup (<[other := value]> environ) = startup environ ∧
   startup (delete other environ) = startup environ).
Proof.
  unfold startup. split.
  - rewrite forallb_forall. split.
    + intros H name Hname. apply truth_Some.
      change (environ !! name) with (getenv environ name).
      apply H, in_map. by apply list_elem_of_In.
    + intros H v (name & <- & Hname)%in_map_iff. apply truth_Some, H.
      by apply list_elem_of_In.
  - intros Hother.
    assert (∀ env', (∀ name, name ∈ required → env' !! name = environ !! name) →
                    map (getenv env') required = map (getenv environ) required) as Hmap.
    { intros env' Hsame. apply map_ext_in. intros name Hname. unfold getenv.
      apply Hsame. by apply list_elem_of_In. }
    split; f_equal; apply Hmap; intros name Hname.
    + apply lookup_insert_ne. by intros ->.
    + apply lookup_delete_ne. by intros ->.
Qed.

Lemma startup_needs_every_variable_witness :
  startup (<["PATH" := "/usr/bin"]> {["CHANNEL_ID" := ""]}) =
  startup {["CHANNEL_ID" := ""]} ∧
  startup (delete "PATH" {["CHANNEL_ID" := ""]}) = startup {["CHANNEL_ID" := ""]}.
Proof.
  apply (startup_needs_every_variable {["CHANNEL_ID" := ""]} "PATH" "/usr/bin").
  unfold required. intros H.
  repeat (apply elem_of_cons in H as [H|H]; [discriminate|]). by apply elem_of_nil in H.
Defined.

(** ** Ticks whose first send fails *)

Lemma failing_tick (b : bot) (now : datetime) :
  let b' := run b [Tick now; Sent (length (jobs b)) false] in
  post_queue b' = post_queue b ∧ removed b' = removed b ∧
  length (jobs b') = S (length (jobs b)) ∧
  sent b' = sent b ++ call (length (jobs b)) (loop now (post_queue b)).
Proof.
  cbv zeta. unfold run. cbn [fold_left]. cbn [step jobs post_queue sent removed].
  rewrite lookup_app_r by lia. rewrite Nat.sub_diag. cbn [lookup list_lookup].
  unfold auto_post_loop.
  destruct (loop now (post_queue b)) as [now' x rest| |e] eqn:Hl.
  - cbn [resume post_queue removed jobs sent call]. rewrite length_insert, length_app.
    cbn [length]. rewrite app_nil_r. split; [done|]. split; [done|]. split; [lia|done].
  - cbn [post_queue removed jobs sent]. rewrite length_app. cbn [length].
    split; [done|]. split; [done|]. split; [lia|done].
  - cbn [post_queue removed jobs sent]. rewrite length_app. cbn [length].
    split; [done|]. split; [done|]. split; [lia|done].
Qed.

(** X19: as long as the [send_photo] of the first due item raises, tick
    after tick, nothing leaves the queue and nothing but that first due item
    is ever tried: every call the ticks make is for the first item of the
    queue due at their [now], and the due items behind it are not sent. *)
Theorem first_due_item_blocks_the_rest (nows : list datetime) (b : bot) :
  let b' := run b (failing_ticks (length (jobs b)) nows) in
  post_queue b' = post_queue b ∧ removed b' = removed b ∧
  ∃ calls, sent b' = sent b ++ calls ∧
           Forall (λ c, ∃ rest, loop (snd (fst c)) (post_queue b) =
                                Awaiting (snd (fst c)) (snd c) rest) calls.
Proof.
  cbv zeta. revert b. induction nows as [|now nows IH]; intros b.
  - cbn. split; [done|]. split; [done|]. exists []. by rewrite app_nil_r.
  - cbn [failing_ticks].
    change (Tick now :: Sent (length (jobs b)) false :: ?l)
      with ([Tick now; Sent (length (jobs b)) false] ++ l).
    rewrite run_app. destruct (failing_tick b now) as (Hq & Hr & Hl & Hs).
    cbv zeta in Hq, Hr, Hl, Hs. rewrite <- Hl.
    destruct (IH (run b [Tick now; Sent (length (jobs b)) false]))
      as (Hq' & Hr' & calls & Hs' & Hcalls).
    rewrite Hq', Hr', Hs', Hq, Hr, Hs. split; [done|]. split; [done|].
    exists (call (length (jobs b)) (loop now (post_queue b)) ++ calls).
    split; [by rewrite app_assoc|]. apply Forall_app. split.
    + destruct (loop now (post_queue b)) as [now' x rest| |e] eqn:Hloop; cbn [call];
        [|by constructor..].
      pose proof (loop_awaiting _ _ _ _ _ Hloop) as (-> & _).
      repeat constructor. cbn. by exists rest.
    + by rewrite Hq in Hcalls.
Qed.
